(** * repotojson: the selective tree materialisation engine

    A shallow embedding of the helper functions of [zip_to_json_app.py]
    and [zip2json.py]:

    - [build_file_tree_from_zip]      (the path index),
    - [get_node_details_from_tree]    (node lookup),
    - [collect_final_selected_files]  (selection resolution),
    - [build_nested_json_from_paths]  (prefix normalisation and assembly),
    - the [json.dumps(..., indent=2)] call of the conversion pipeline.

    Python [str] values are [string]s (characters are the 8-bit [ascii]
    code points, compared by code point as Python does); a Python [dict]
    is an association list kept in insertion order with unique keys; the
    [set] of selected paths is the list of its elements in whatever order
    the interpreter iterates over it.  The calls to [st.warning] only
    display a message and are left out. *)

From Stdlib Require Import List String Ascii Bool Arith Lia NArith.
From Stdlib Require Import Sorting.Sorted Sorting.Permutation Sorting.Mergesort.
From Stdlib Require Import Structures.Orders RelationClasses.
Import ListNotations.
Local Open Scope string_scope.
Local Open Scope list_scope.

(* ================================================================== *)
(** ** Python string primitives *)
(* ================================================================== *)

Definition slash : ascii := "/"%char.

(** [s.startswith(p)] *)
Definition startswith (s p : string) : bool := String.prefix p s.

(** [s.endswith(suf)] *)
Fixpoint endswith (s suf : string) : bool :=
  (s =? suf) ||
  match s with
  | EmptyString => false
  | String _ r => endswith r suf
  end.

(** [s.split('/')]: never empty, [''.split('/') == ['']]. *)
Fixpoint split (s : string) : list string :=
  match s with
  | EmptyString => [EmptyString]
  | String c r =>
      if Ascii.eqb c slash then EmptyString :: split r
      else match split r with
           | h :: t => String c h :: t
           | [] => [String c EmptyString]
           end
  end.

(** ['/'.join(l)] *)
Definition join (l : list string) : string := String.concat "/" l.

(** [s.lstrip('/')], [s.rstrip('/')] and [s.strip('/')] *)
Fixpoint lstrip (s : string) : string :=
  match s with
  | EmptyString => EmptyString
  | String c r => if Ascii.eqb c slash then lstrip r else s
  end.

Fixpoint rstrip (s : string) : string :=
  match s with
  | EmptyString => EmptyString
  | String c r =>
      match rstrip r with
      | EmptyString => if Ascii.eqb c slash then EmptyString else String c EmptyString
      | r' => String c r'
      end
  end.

Definition strip (s : string) : string := rstrip (lstrip s).

(** [s[n:]] *)
Fixpoint drop (n : nat) (s : string) : string :=
  match n, s with
  | O, _ => s
  | S n', String _ r => drop n' r
  | S _, EmptyString => EmptyString
  end.

(** Python compares [str] values lexicographically by code point. *)
Definition str_le (a b : string) : Prop := String.leb a b = true.
Definition str_lt (a b : string) : Prop := String.ltb a b = true.

(** [sorted(...)] on strings: a stable merge sort for [<=]. *)
Module StringOrder <: TotalLeBool.
Definition t := string.
Definition leb := String.leb.
Definition leb_total :
  forall a1 a2, leb a1 a2 = true \/ leb a2 a1 = true := String.leb_total.
End StringOrder.

Module StringSort := Sort StringOrder.

Definition sorted (l : list string) : list string := StringSort.sort l.

(* ================================================================== *)
(** ** Python dictionaries *)
(* ================================================================== *)

Section Dict.
Context {V : Type}.

Definition dict := list (string * V).

(** [d.get(k)] / [k in d] / [d[k]] *)
Fixpoint dict_get (k : string) (d : dict) : option V :=
  match d with
  | [] => None
  | (k', v) :: r => if (k' =? k)%string then Some v else dict_get k r
  end.

(** [d[k] = v]: an existing key keeps its position, a new one goes last. *)
Fixpoint dict_set (k : string) (v : V) (d : dict) : dict :=
  match d with
  | [] => [(k, v)]
  | (k', v') :: r =>
      if (k' =? k)%string then (k', v) :: r else (k', v') :: dict_set k v r
  end.

Definition keys (d : dict) : list string := map fst d.
End Dict.
Arguments dict : clear implicits.

(* ================================================================== *)
(** ** The file tree: [build_file_tree_from_zip] *)
(* ================================================================== *)

(** A node dictionary [{'type': 'file', 'path': p}] or
    [{'type': 'folder', 'children': {...}, 'path': p}].  The builder never
    stores a ['children'] entry in a file node and always stores one in a
    folder node. *)
#[warnings="-register-all"]
Inductive node : Type :=
| File (path : string)
| Folder (path : string) (children : list (string * node)).

Definition tree := dict node.

(** The inner loop over [enumerate(parts)] for one [path_str]:
    [done] is [parts[:i]] and [rest] is [parts[i:]]. *)
Fixpoint add_path (path_str : string) (done rest : list string)
                  (current_level : tree) : tree :=
  match rest with
  | [] => current_level
  | part :: rest' =>
      match rest' with
      | [] => dict_set part (File path_str) current_level
      | _ :: _ =>
          let folder_path := (join (done ++ [part]) ++ "/")%string in
          match dict_get part current_level with
          | None =>
              dict_set part
                (Folder folder_path (add_path path_str (done ++ [part]) rest' []))
                current_level
          | Some (File _) =>
              dict_set part
                (Folder folder_path (add_path path_str (done ++ [part]) rest' []))
                current_level
          | Some (Folder p children) =>
              dict_set part
                (Folder p (add_path path_str (done ++ [part]) rest' children))
                current_level
          end
      end
  end.

(** [[name for name in namelist if not name.endswith('/')]] *)
Definition file_names (namelist : list string) : list string :=
  filter (fun name => negb (endswith name "/")) namelist.

Definition build_file_tree_from_zip (namelist : list string) : tree :=
  fold_left (fun t path_str => add_path path_str [] (split path_str) t)
            (sorted (file_names namelist)) [].

(** The paths carried by the File nodes of a tree. *)
Fixpoint node_file_paths (n : node) : list string :=
  match n with
  | File p => [p]
  | Folder _ children =>
      (fix go (d : list (string * node)) : list string :=
         match d with
         | [] => []
         | (_, c) :: r => node_file_paths c ++ go r
         end) children
  end.

Fixpoint file_paths (t : tree) : list string :=
  match t with
  | [] => []
  | (_, c) :: r => node_file_paths c ++ file_paths r
  end.

(* ================================================================== *)
(** ** Node lookup and selection: [get_node_details_from_tree],
       [collect_final_selected_files] *)
(* ================================================================== *)

(** The loop over [enumerate(parts)]; [node_info] is the variable of the
    same name, [rest = []] is the test [i == len(parts) - 1]. *)
Fixpoint walk (parts : list string) (current_node_dict : tree)
              (node_info : option node) : option node :=
  match parts with
  | [] => node_info
  | p_part :: rest =>
      match dict_get p_part current_node_dict with
      | Some n =>
          match n, rest with
          | Folder _ children, _ :: _ => walk rest children (Some n)
          | _, [] => Some n
          | File _, _ :: _ => None
          end
      | None => None
      end
  end.

Definition get_node_details_from_tree (path_key : string) (tree_root : tree)
  : option node :=
  walk (split (strip path_key)) tree_root None.

(** [final_files_for_json.add(x)] on a set kept as a duplicate-free list. *)
Definition set_add (x : string) (s : list string) : list string :=
  if existsb (String.eqb x) s then s else s ++ [x].

(** The body of the loop over [all_actual_files_in_zip]. *)
Definition add_if_under (folder_prefix_path : string) (acc : list string)
    (file_in_zip : string) : list string :=
  if startswith file_in_zip folder_prefix_path then set_add file_in_zip acc else acc.

(** The body of the loop over the selected paths. *)
Definition collect_step (all_actual_files_in_zip : list string)
    (initial_file_tree : tree) (final_files_for_json : list string)
    (selected_path_key : string) : list string :=
  match get_node_details_from_tree selected_path_key initial_file_tree with
  | None => final_files_for_json
  | Some (File p) => set_add p final_files_for_json
  | Some (Folder folder_prefix_path _) =>
      fold_left (add_if_under folder_prefix_path)
                all_actual_files_in_zip final_files_for_json
  end.

(** [user_selected_paths_from_ui] is the set of checked paths, given here
    as the sequence in which the [for] loop visits its elements. *)
Definition collect_final_selected_files
    (user_selected_paths_from_ui : list string) (namelist : list string)
    (initial_file_tree : tree) : list string :=
  sorted (fold_left (collect_step (file_names namelist) initial_file_tree)
                    user_selected_paths_from_ui []).

(* ================================================================== *)
(** ** [os.path.commonpath] and [os.path.dirname] (posixpath) *)
(* ================================================================== *)

(** Python's [<] on lists of strings. *)
Fixpoint list_lt (a b : list string) : bool :=
  match a, b with
  | [], [] => false
  | [], _ :: _ => true
  | _ :: _, [] => false
  | x :: a', y :: b' => if (x =? y)%string then list_lt a' b' else String.ltb x y
  end.

(** [min(l)] and [max(l)]: the first smallest and the first largest item. *)
Definition list_min (first : list string) (others : list (list string)) :=
  fold_left (fun m x => if list_lt x m then x else m) others first.

Definition list_max (first : list string) (others : list (list string)) :=
  fold_left (fun m x => if list_lt m x then x else m) others first.

(** The loop [for i, c in enumerate(s1): if c != s2[i]: common = s1[:i]; break].
    As [s1 <= s2], [s2[i]] exists whenever the loop reaches index [i]. *)
Fixpoint common_components (s1 s2 : list string) : list string :=
  match s1, s2 with
  | c :: r1, d :: r2 => if (c =? d)%string then c :: common_components r1 r2 else []
  | _, _ => []
  end.

(** [None] stands for the [ValueError] raised on an empty sequence or on a
    mix of absolute and relative paths. *)
Definition commonpath (paths : list string) : option string :=
  match paths with
  | [] => None
  | p0 :: ps =>
      let isabs := startswith p0 "/" in
      if forallb (fun p => Bool.eqb (startswith p "/") isabs) paths then
        let components p :=
          filter (fun c => negb (c =? "")%string && negb (c =? ".")%string) (split p) in
        let s1 := list_min (components p0) (map components ps) in
        let s2 := list_max (components p0) (map components ps) in
        Some ((if isabs then "/" else "") ++ join (common_components s1 s2))%string
      else None
  end.

(** [p[:p.rfind('/') + 1]] *)
Fixpoint upto_last_slash (p : string) : string :=
  match p with
  | EmptyString => EmptyString
  | String c r =>
      match upto_last_slash r with
      | EmptyString => if Ascii.eqb c slash then String c EmptyString else EmptyString
      | h => String c h
      end
  end.

Fixpoint all_slashes (s : string) : bool :=
  match s with
  | EmptyString => true
  | String c r => Ascii.eqb c slash && all_slashes r
  end.

Definition dirname (p : string) : string :=
  let head := upto_last_slash p in
  if negb (head =? "")%string && negb (all_slashes head) then rstrip head else head.

(* ================================================================== *)
(** ** Assembly: [build_nested_json_from_paths] *)
(* ================================================================== *)

(** The assembled document: a leaf holds text, a mapping holds members. *)
#[warnings="-register-all"]
Inductive json : Type :=
| JStr (text : string)
| JObj (members : list (string * json)).

Definition bytes := list Byte.byte.

(** What [zip_file_obj.read(name)] does: it returns the entry's bytes or
    raises an exception [e]; [message] is [str(e)]. *)
Inductive read_outcome : Type :=
| Returns (content : bytes)
| Raises (message : string).

Definition nonempty (s : string) : bool := negb (s =? "")%string.

Definition relative_path (common_prefix file_path_in_zip : string) : string :=
  if nonempty common_prefix && startswith file_path_in_zip common_prefix
  then drop (String.length common_prefix) file_path_in_zip
  else file_path_in_zip.

Section Assembly.
(** The archive being read and [bytes.decode('utf-8', errors='replace')],
    which never raises. *)
Variable zip_read : string -> read_outcome.
Variable decode : bytes -> string.

(** The [try]/[except] block. *)
Definition file_content_str (file_path_in_zip : string) : string :=
  match zip_read file_path_in_zip with
  | Returns file_content_bytes => decode file_content_bytes
  | Raises e =>
      ("Error reading/decoding file '" ++ file_path_in_zip ++ "': " ++ e ++ ".")%string
  end.
End Assembly.

(** *** [zip_to_json_app.py] *)
Module App.

Definition common_prefix_of (common : string) (selected_file_paths : list string)
  : string :=
  let common_prefix := common in
  let common_prefix :=
    if nonempty common_prefix &&
       negb (forallb (fun f_path => startswith f_path (common_prefix ++ "/")%string
                                    || (f_path =? common_prefix)%string)
               (filter (fun f_path => negb (f_path =? common_prefix)%string)
                       selected_file_paths))
    then dirname common_prefix else common_prefix in
  let common_prefix :=
    if nonempty common_prefix && negb (endswith common_prefix "/")
    then (common_prefix ++ "/")%string else common_prefix in
  if (common_prefix =? "./")%string then "" else common_prefix.

(** The loop over [enumerate(path_segments)]. *)
Fixpoint set_path (path_segments : list string) (file_content_str : string)
                  (current_dict_level : dict json) : dict json :=
  match path_segments with
  | [] => current_dict_level
  | segment :: rest =>
      match rest with
      | [] => dict_set segment (JStr file_content_str) current_dict_level
      | _ :: _ =>
          match dict_get segment current_dict_level with
          | Some (JObj sub) =>
              dict_set segment (JObj (set_path rest file_content_str sub))
                       current_dict_level
          | _ =>
              dict_set segment (JObj (set_path rest file_content_str []))
                       current_dict_level
          end
      end
  end.

Definition assemble (zip_read : string -> read_outcome) (decode : bytes -> string)
    (common_prefix : string) (selected_file_paths : list string)
    (output_json_structure : dict json) : dict json :=
  fold_left
    (fun out file_path_in_zip =>
       set_path (split (relative_path common_prefix file_path_in_zip))
                (file_content_str zip_read decode file_path_in_zip) out)
    selected_file_paths output_json_structure.

(** [None] is the [ValueError] of [os.path.commonpath]. *)
Definition build_nested_json_from_paths
    (zip_read : string -> read_outcome) (decode : bytes -> string)
    (selected_file_paths : list string) : option (dict json) :=
  match selected_file_paths with
  | [] => Some []
  | _ :: _ =>
      match commonpath selected_file_paths with
      | None => None
      | Some common =>
          Some (assemble zip_read decode
                  (common_prefix_of common selected_file_paths)
                  selected_file_paths [])
      end
  end.

End App.

(** *** [zip2json.py] *)
Module Zip2.

Definition common_prefix_of (common : string) (selected_file_paths : list string)
  : string :=
  let common_prefix := common in
  let common_prefix :=
    if nonempty common_prefix then
      let is_prefix_actually_file :=
        existsb (String.eqb common_prefix) selected_file_paths
        && negb (endswith common_prefix "/") in
      let common_prefix :=
        if is_prefix_actually_file ||
           negb (forallb
                   (fun f => startswith f
                      (common_prefix ++
                         (if negb (endswith common_prefix "/") then "/" else ""))%string)
                   (filter (fun f => negb (f =? common_prefix)%string)
                           selected_file_paths))
        then dirname common_prefix else common_prefix in
      if nonempty common_prefix && negb (endswith common_prefix "/")
      then (common_prefix ++ "/")%string else common_prefix
    else common_prefix in
  if (common_prefix =? "./")%string || (common_prefix =? ".")%string
  then "" else common_prefix.

(** The loop over [enumerate(path_segments)]; an empty segment is skipped
    by [continue] whatever its index. *)
Fixpoint set_path (path_segments : list string) (file_content_str : string)
                  (current_dict_level : dict json) : dict json :=
  match path_segments with
  | [] => current_dict_level
  | segment :: rest =>
      if (segment =? "")%string then set_path rest file_content_str current_dict_level
      else
        match rest with
        | [] => dict_set segment (JStr file_content_str) current_dict_level
        | _ :: _ =>
            match dict_get segment current_dict_level with
            | Some (JObj sub) =>
                dict_set segment (JObj (set_path rest file_content_str sub))
                         current_dict_level
            | _ =>
                dict_set segment (JObj (set_path rest file_content_str []))
                         current_dict_level
            end
        end
  end.

Definition assemble (zip_read : string -> read_outcome) (decode : bytes -> string)
    (common_prefix : string) (selected_file_paths : list string)
    (output_json_structure : dict json) : dict json :=
  fold_left
    (fun out file_path_in_zip =>
       set_path (split (relative_path common_prefix file_path_in_zip))
                (file_content_str zip_read decode file_path_in_zip) out)
    selected_file_paths output_json_structure.

Definition build_nested_json_from_paths
    (zip_read : string -> read_outcome) (decode : bytes -> string)
    (selected_file_paths : list string) : option (dict json) :=
  match selected_file_paths with
  | [] => Some []
  | _ :: _ =>
      match commonpath selected_file_paths with
      | None => None
      | Some common =>
          Some (assemble zip_read decode
                  (common_prefix_of common selected_file_paths)
                  selected_file_paths [])
      end
  end.

End Zip2.

(* ================================================================== *)
(** ** Serialisation: [json.dumps(obj, indent=2)] *)
(* ================================================================== *)

Definition dquote : string := String (ascii_of_nat 34) EmptyString.
Definition newline : string := String (ascii_of_nat 10) EmptyString.

Definition hex_digit (n : nat) : string :=
  String.substring n 1 "0123456789abcdef".

(** One character of [py_encode_basestring_ascii]. *)
Definition escape_char (c : ascii) : string :=
  let n := nat_of_ascii c in
  if (n =? 34)%nat then ("\" ++ dquote)%string
  else if (n =? 92)%nat then "\\"
  else if (n =? 10)%nat then "\n"
  else if (n =? 13)%nat then "\r"
  else if (n =? 9)%nat then "\t"
  else if (n =? 8)%nat then "\b"
  else if (n =? 12)%nat then "\f"
  else if ((32 <=? n) && (n <=? 126))%nat then String c EmptyString
  else ("\u00" ++ hex_digit (n / 16) ++ hex_digit (n mod 16))%string.

Fixpoint escape (s : string) : string :=
  match s with
  | EmptyString => EmptyString
  | String c r => (escape_char c ++ escape r)%string
  end.

Definition encode_basestring_ascii (s : string) : string :=
  (dquote ++ escape s ++ dquote)%string.

Fixpoint indentation (level : nat) : string :=
  match level with
  | O => EmptyString
  | S l => ("  " ++ indentation l)%string
  end.

Definition newline_indent (level : nat) : string :=
  (newline ++ indentation level)%string.

(** [_iterencode] at [_current_indent_level = level], chunks concatenated. *)
Fixpoint iterencode (level : nat) (o : json) {struct o} : string :=
  match o with
  | JStr s => encode_basestring_ascii s
  | JObj [] => "{}"
  | JObj ((k0, v0) :: others) =>
      ("{" ++ newline_indent (S level)
           ++ encode_basestring_ascii k0 ++ ": " ++ iterencode (S level) v0
           ++ (fix items (d : list (string * json)) : string :=
                 match d with
                 | [] => EmptyString
                 | (k, v) :: r =>
                     "," ++ newline_indent (S level)
                         ++ encode_basestring_ascii k ++ ": "
                         ++ iterencode (S level) v ++ items r
                 end) others
           ++ newline_indent level ++ "}")%string
  end.

Definition json_dumps (o : json) : string := iterencode 0 o.

(* ================================================================== *)
(** ** The conversion pipeline run by the "Convert to JSON" button *)
(* ================================================================== *)

Inductive conversion : Type :=
| Converted (json_string_output : string)
| NothingSelected
| ConversionError.

Section Pipeline.
Variable build_nested_json_from_paths :
  (string -> read_outcome) -> (bytes -> string) -> list string -> option (dict json).

Definition convert_with (initial_file_tree : tree)
    (user_selected_paths_from_ui : list string) (namelist : list string)
    (zip_read : string -> read_outcome) (decode : bytes -> string) : conversion :=
  match collect_final_selected_files user_selected_paths_from_ui namelist
                                     initial_file_tree with
  | [] => NothingSelected
  | selected_files_for_json =>
      match build_nested_json_from_paths zip_read decode selected_files_for_json with
      | None => ConversionError
      | Some json_output_cache => Converted (json_dumps (JObj json_output_cache))
      end
  end.
End Pipeline.

Definition convert_app := convert_with App.build_nested_json_from_paths.
Definition convert_zip2 := convert_with Zip2.build_nested_json_from_paths.

(* ================================================================== *)
(** ** Concrete runs *)
(* ================================================================== *)

Definition ascii_decode (b : bytes) : string := string_of_list_byte b.

(** An archive of two entries. For any other name [ZipFile.read] raises
    [KeyError]; the text is what [str] gives for it, the [repr] of its
    argument, hence the surrounding quotes. *)
Definition sample_zip (name : string) : read_outcome :=
  if (name =? "src/a.py")%string then Returns (list_byte_of_string "1")
  else if (name =? "src/b/c.py")%string then Returns (list_byte_of_string "2")
  else Raises (dquote ++ "There is no item named '" ++ name ++ "' in the archive"
                      ++ dquote)%string.

(** An archive in which every entry holds its own name. *)
Definition echo_zip (name : string) : read_outcome :=
  Returns (list_byte_of_string name).


(* ================================================================== *)
(** ** Vocabulary of the statements *)
(* ================================================================== *)

(** [b] continues [a] with at least one more segment. *)
Definition proper_prefix (a b : list string) : Prop :=
  exists r, r <> [] /\ b = a ++ r.

(** [a] and [b] part ways at some segment. *)
Inductive diverge : list string -> list string -> Prop :=
| diverge_here x y ra rb : x <> y -> diverge (x :: ra) (y :: rb)
| diverge_later k a b : diverge a b -> diverge (k :: a) (k :: b).

Definition node_at (ks : list string) (t : tree) : option node := walk ks t None.

(** What the folder branch leaves at [part]. *)
Definition descend_path (done : list string) (part : string) (t : tree) : string :=
  match dict_get part t with
  | Some (Folder p _) => p
  | _ => (join (done ++ [part]) ++ "/")%string
  end.

Definition descend_children (part : string) (t : tree) : tree :=
  match dict_get part t with
  | Some (Folder _ children) => children
  | _ => []
  end.

Fixpoint wf_node (n : node) : Prop :=
  match n with
  | File _ => True
  | Folder _ children =>
      NoDup (keys children) /\
      (fix all (d : list (string * node)) : Prop :=
         match d with
         | [] => True
         | (_, c) :: r => wf_node c /\ all r
         end) children
  end.

Fixpoint wf_children (t : tree) : Prop :=
  match t with
  | [] => True
  | (_, c) :: r => wf_node c /\ wf_children r
  end.

Definition wf_tree (t : tree) : Prop := NoDup (keys t) /\ wf_children t.

Section NodeInduction.
Variable P : node -> Prop.
Variable Q : tree -> Prop.
Hypothesis P_file : forall p, P (File p).
Hypothesis P_folder : forall p ch, Q ch -> P (Folder p ch).
Hypothesis Q_nil : Q [].
Hypothesis Q_cons : forall k c r, P c -> Q r -> Q ((k, c) :: r).

Fixpoint node_tree_ind (n : node) : P n :=
  match n with
  | File p => P_file p
  | Folder p ch =>
      P_folder p ch
        ((fix go (d : list (string * node)) : Q d :=
            match d with
            | [] => Q_nil
            | (k, c) :: r => Q_cons k c r (node_tree_ind c) (go r)
            end) ch)
  end.

Fixpoint tree_node_ind (t : tree) : Q t :=
  match t with
  | [] => Q_nil
  | (k, c) :: r => Q_cons k c r (node_tree_ind c) (tree_node_ind r)
  end.
End NodeInduction.

(** Some path of [l] lies below [p] taken as a directory. *)
Definition has_descendant (l : list string) (p : string) : Prop :=
  exists q, In q l /\ proper_prefix (split p) (split q).

Record tree_inv (t : tree) (l : list string) : Prop := {
  inv_file : forall ks p,
    node_at ks t = Some (File p) -> In p l /\ ks = split p;
  inv_folder : forall q ks,
    In q l -> ks <> [] -> proper_prefix ks (split q) ->
    exists fp ch, node_at ks t = Some (Folder fp ch);
  inv_leaf : forall p,
    In p l -> node_at (split p) t = Some (File p) \/ has_descendant l p
}.

(** What one selected path adds: the path of the File node it names, or
    the entries of the file list that start with the path of the Folder
    node it names. *)
Definition contributes (t : tree) (files : list string) (sel x : string) : Prop :=
  match get_node_details_from_tree sel t with
  | None => False
  | Some (File p) => x = p
  | Some (Folder folder_prefix_path _) =>
      In x files /\ startswith x folder_prefix_path = true
  end.

(** The walk from the root stops without a node: a segment is missing, or
    a File node is met before the final segment. *)
Inductive walk_fails : list string -> tree -> Prop :=
| fails_missing k r t :
    dict_get k t = None -> walk_fails (k :: r) t
| fails_through_file k r t p :
    dict_get k t = Some (File p) -> r <> [] -> walk_fails (k :: r) t
| fails_deeper k r t fp ch :
    dict_get k t = Some (Folder fp ch) -> r <> [] -> walk_fails r ch ->
    walk_fails (k :: r) t.

(** The value found by following the segments [ks] from the top level. *)
Fixpoint json_at (ks : list string) (d : dict json) : option json :=
  match ks with
  | [] => None
  | k :: r =>
      match dict_get k d, r with
      | Some v, [] => Some v
      | Some (JObj sub), _ :: _ => json_at r sub
      | _, _ => None
      end
  end.

(** [d] with the value under [k], if any, replaced by its image. *)
Fixpoint dict_update {V : Type} (k : string) (f : V -> V) (d : dict V) : dict V :=
  match d with
  | [] => []
  | (k', v) :: r =>
      if (k' =? k)%string then (k', f v) :: r else (k', v) :: dict_update k f r
  end.

(** [d] with the text of the leaf at [ks], if there is one, replaced by [s]. *)
Fixpoint retext (ks : list string) (s : string) (d : dict json) : dict json :=
  match ks with
  | [] => d
  | k :: r =>
      dict_update k
        (fun v =>
           match r, v with
           | [], JStr _ => JStr s
           | _ :: _, JObj m => JObj (retext r s m)
           | _, _ => v
           end) d
  end.

(** The assembly loop on explicit (segments, text) pairs. *)
Definition insert_all (items : list (list string * string)) (d : dict json)
  : dict json :=
  fold_left (fun out it => App.set_path (fst it) (snd it) out) items d.

Definition sub_mapping (k : string) (d : dict json) : dict json :=
  match dict_get k d with
  | Some (JObj sub) => sub
  | _ => []
  end.

Inductive source_file : Type := zip_to_json_app | zip2json.

Definition set_path_of (f : source_file) :=
  match f with
  | zip_to_json_app => App.set_path
  | zip2json => Zip2.set_path
  end.

Definition common_prefix_of (f : source_file) :=
  match f with
  | zip_to_json_app => App.common_prefix_of
  | zip2json => Zip2.common_prefix_of
  end.

Definition assemble_of (f : source_file) :=
  match f with
  | zip_to_json_app => App.assemble
  | zip2json => Zip2.assemble
  end.

Definition build_of (f : source_file) :=
  match f with
  | zip_to_json_app => App.build_nested_json_from_paths
  | zip2json => Zip2.build_nested_json_from_paths
  end.

Definition convert_of (f : source_file) :=
  match f with
  | zip_to_json_app => convert_app
  | zip2json => convert_zip2
  end.

(** [path_segments] of the assembly loop. *)
Definition path_segments (common_prefix file_path_in_zip : string) : list string :=
  split (relative_path common_prefix file_path_in_zip).

(** The keys under which a file is filed: [zip2json.py] passes over empty
    segments. *)
Definition key_path (f : source_file) (segments : list string) : list string :=
  match f with
  | zip_to_json_app => segments
  | zip2json => filter nonempty segments
  end.

(** The loop reaches the assignment of the leaf: in [zip2json.py] the last
    segment must not be empty. *)
Definition stores_leaf (f : source_file) (segments : list string) : Prop :=
  match f with
  | zip_to_json_app => True
  | zip2json => last segments "" <> ""
  end.

Definition item_of (f : source_file) (zip_read : string -> read_outcome)
    (decode : bytes -> string) (common_prefix file_path_in_zip : string)
  : list string * string :=
  (key_path f (path_segments common_prefix file_path_in_zip),
   file_content_str zip_read decode file_path_in_zip).

(** The File nodes carry exactly the listed paths. *)
Definition file_paths_equal_input (namelist : list string) : Prop :=
  forall p, In p (file_paths (build_file_tree_from_zip namelist)) <-> In p namelist.

(** Selecting the root through the path "" returns every file of the list. *)
Definition root_selection_returns_all (t : tree) (namelist sels : list string) : Prop :=
  In "" sels ->
  forall f, In f (file_names namelist) ->
            In f (collect_final_selected_files sels namelist t).

(** The prefix that [build_nested_json_from_paths] strips. *)
Definition common_prefix (f : source_file) (selected_file_paths : list string)
  : option string :=
  option_map (fun common => common_prefix_of f common selected_file_paths)
             (commonpath selected_file_paths).

(** Where a file goes in the document assembled from [paths]. *)
Definition file_key (f : source_file) (common : string) (paths : list string)
    (y : string) : list string :=
  key_path f (path_segments (common_prefix_of f common paths) y).

(** Every file of [paths] gets a leaf. *)
Definition all_store_leaf (f : source_file) (common : string) (paths : list string)
  : Prop :=
  forall y, In y paths ->
            stores_leaf f (path_segments (common_prefix_of f common paths) y).

(** The files of [later] are filed apart from [x]: neither at its place
    nor above or below it. *)
Definition filed_apart (key : string -> list string) (x : string)
    (later : list string) : Prop :=
  forall y, In y later -> diverge (key x) (key y).

(* ================================================================== *)
(** ** Vocabulary of the further properties *)
(* ================================================================== *)

(** Below the directory [done], every Folder node carries the path made
    of its position. *)
Definition folder_paths_ok (done : list string) (t : tree) : Prop :=
  forall ks fp ch,
    node_at ks t = Some (Folder fp ch) -> fp = (join (done ++ ks) ++ "/")%string.

(** [ks] is the position of a path of [l] or of one of its directories. *)
Definition on_listed_path (l : list string) (ks : list string) : Prop :=
  exists q, In q l /\ (ks = split q \/ proper_prefix ks (split q)).

(** [item['path']] *)
Definition node_path (n : node) : string :=
  match n with File p => p | Folder p _ => p end.

(** No key of the document, at any depth, is the empty string. *)
Fixpoint no_empty_key_json (j : json) : Prop :=
  match j with
  | JStr _ => True
  | JObj members =>
      (fix go (d : list (string * json)) : Prop :=
         match d with
         | [] => True
         | (k, v) :: r => k <> "" /\ no_empty_key_json v /\ go r
         end) members
  end.

Fixpoint no_empty_key (d : dict json) : Prop :=
  match d with
  | [] => True
  | (k, v) :: r => k <> "" /\ no_empty_key_json v /\ no_empty_key r
  end.

(** The texts held by the leaves of the document. *)
Fixpoint json_leaves (j : json) : list string :=
  match j with
  | JStr s => [s]
  | JObj members =>
      (fix go (d : list (string * json)) : list string :=
         match d with
         | [] => []
         | (_, v) :: r => json_leaves v ++ go r
         end) members
  end.

Fixpoint leaves (d : dict json) : list string :=
  match d with
  | [] => []
  | (_, v) :: r => json_leaves v ++ leaves r
  end.

(** No character of [s] is the separator. *)
Fixpoint slash_free (s : string) : bool :=
  match s with
  | EmptyString => true
  | String c r => negb (Ascii.eqb c slash) && slash_free r
  end.

(** A segment that [os.path.commonpath] keeps. *)
Definition plain_segment (s : string) : Prop := s <> "" /\ s <> ".".

(* ================================================================== *)
(** ** The tree display of [zip_to_json_app.py]: [render_tree_ui] *)
(* ================================================================== *)

(** [st.session_state.checkbox_states.get(key, False)] *)
Definition checked (checkbox_states : dict bool) (key : string) : bool :=
  match dict_get key checkbox_states with
  | Some b => b
  | None => false
  end.

Definition is_file (n : node) : bool :=
  match n with File _ => true | Folder _ _ => false end.

(** The order of the sort key [(x[1]['type'] == 'file', x[0])]: folders
    before files, then by name. *)
Definition item_le (a b : string * node) : bool :=
  if Bool.eqb (is_file (snd a)) (is_file (snd b))
  then String.leb (fst a) (fst b)
  else negb (is_file (snd a)).

Fixpoint insert_item (x : string * node) (l : list (string * node))
  : list (string * node) :=
  match l with
  | [] => [x]
  | y :: r => if item_le x y then x :: l else y :: insert_item x r
  end.

(** [sorted(data_dict.items(), key=...)], a stable sort. *)
Definition sort_items (data_dict : tree) : list (string * node) :=
  fold_right insert_item [] data_dict.

Section Render.
(** What [st.checkbox(label, key=key, value=value)] returns in this run of
    the script; the label only changes what is displayed. *)
Variable checkbox : string -> bool -> bool.

(** One checkbox: the state is written only when the widget differs from
    the stored value. *)
Definition tick (checkbox_states : dict bool) (current_item_path : string)
  : dict bool :=
  let is_checked_by_default := checked checkbox_states current_item_path in
  let new_state := checkbox current_item_path is_checked_by_default in
  if Bool.eqb new_state is_checked_by_default then checkbox_states
  else dict_set current_item_path new_state checkbox_states.

(** The state of the display: [checkbox_states] and the keys of the
    checkboxes created so far, in order. *)
Definition display : Type := (dict bool * list string)%type.

Definition checkbox_step (s : display) (current_item_path : string) : display :=
  (tick (fst s) current_item_path, snd s ++ [current_item_path]).

(** The loop over [sorted_items]; [render_children] is the recursive
    call. *)
Fixpoint render_items (render_children : tree -> display -> option display)
    (sorted_items : list (string * node)) (s : display) : option display :=
  match sorted_items with
  | [] => Some s
  | (_, item) :: rest =>
      let s1 := checkbox_step s (node_path item) in
      match item with
      | Folder _ ((_ :: _) as children) =>
          match render_children children s1 with
          | Some s2 => render_items render_children rest s2
          | None => None
          end
      | _ => render_items render_children rest s1
      end
  end.

(** [fuel] bounds the depth of the recursion, as the interpreter's
    recursion limit does; [None] is the [RecursionError]. *)
Fixpoint render_tree_ui (fuel : nat) (data_dict : tree) (s : display)
  : option display :=
  match fuel with
  | O => None
  | S fuel' => render_items (render_tree_ui fuel') (sort_items data_dict) s
  end.
End Render.

(** [{path for path, checked in checkbox_states.items() if checked}], in
    the order of the dictionary. *)
Definition user_selected_paths_from_ui (checkbox_states : dict bool) : list string :=
  map fst (filter snd checkbox_states).

(** The paths of all the nodes of a tree. *)
Fixpoint node_all_paths (n : node) : list string :=
  match n with
  | File p => [p]
  | Folder p children =>
      p :: (fix go (d : list (string * node)) : list string :=
              match d with
              | [] => []
              | (_, c) :: r => node_all_paths c ++ go r
              end) children
  end.

Fixpoint all_paths (t : list (string * node)) : list string :=
  match t with
  | [] => []
  | (_, c) :: r => node_all_paths c ++ all_paths r
  end.

(** [fuel] is enough to display [t]. *)
Fixpoint enough_fuel (fuel : nat) (t : list (string * node)) : Prop :=
  match fuel with
  | O => False
  | S fuel' =>
      forall k p ch, In (k, Folder p ch) t -> ch <> [] -> enough_fuel fuel' ch
  end.

(** Different positions of [t] hold nodes with different paths. *)
Definition paths_distinct (t : tree) : Prop :=
  forall ks1 ks2 n1 n2,
    node_at ks1 t = Some n1 -> node_at ks2 t = Some n2 ->
    node_path n1 = node_path n2 -> ks1 = ks2.

(** The order of the display: a folder comes before a file, and two
    folders or two files come by ascending name. *)
Definition displayed_before (a b : string * node) : Prop :=
  (is_file (snd a) = false /\ is_file (snd b) = true) \/
  (is_file (snd a) = is_file (snd b) /\ str_le (fst a) (fst b)).

(** A user who ticks the folder "src/" and nothing else. *)
Definition tick_src (key : string) (value : bool) : bool := (key =? "src/")%string.

(* ================================================================== *)
(** ** Concrete runs, checked *)
(* ================================================================== *)

Example split_examples :
  split "a//b" = ["a"; ""; "b"] /\ split "" = [""] /\ split "/x" = [""; "x"] /\
  split "src/a.py" = ["src"; "a.py"].
Proof. repeat split. Qed.

Example strip_examples :
  strip "//a/b/" = "a/b" /\ strip "/" = "" /\ strip "a.txt" = "a.txt".
Proof. repeat split. Qed.

Example dirname_examples :
  dirname "x/y/a.txt" = "x/y" /\ dirname "a.txt" = "" /\ dirname "/a" = "/" /\
  dirname "//a" = "//" /\ dirname "a//b" = "a".
Proof. repeat split. Qed.

Example commonpath_examples :
  commonpath ["/usr/lib"; "/usr/local/lib"] = Some "/usr" /\
  commonpath ["x/./a"; "x//b"] = Some "x" /\
  commonpath ["a.txt"; "b.txt"] = Some "" /\
  commonpath ["/a"; "b"] = None /\ commonpath [] = None.
Proof. repeat split. Qed.

Example json_dumps_example :
  json_dumps (JObj [("a", JStr "1"); ("b", JObj [])]) =
  ("{" ++ newline ++
   "  " ++ dquote ++ "a" ++ dquote ++ ": " ++ dquote ++ "1" ++ dquote ++ "," ++ newline ++
   "  " ++ dquote ++ "b" ++ dquote ++ ": {}" ++ newline ++
   "}")%string.
Proof. reflexivity. Qed.

Example escape_examples :
  escape (String (ascii_of_nat 9) "a\b") = "\ta\\b" /\
  escape (String (ascii_of_nat 233) "") = "\u00e9" /\
  escape dquote = ("\" ++ dquote)%string.
Proof. repeat split. Qed.

Example build_two :
  build_file_tree_from_zip ["src/b.py"; "docs/"; "src/a.py"; "README"] =
  [ ("README", File "README");
    ("src", Folder "src/" [("a.py", File "src/a.py"); ("b.py", File "src/b.py")]) ].
Proof. vm_compute. reflexivity. Qed.

Example assemble_round_trip :
  App.assemble sample_zip ascii_decode "src/" ["src/a.py"; "src/b/c.py"] [] =
  [ ("a.py", JStr "1"); ("b", JObj [("c.py", JStr "2")]) ].
Proof. vm_compute. reflexivity. Qed.

(* ================================================================== *)
(** ** Facts about the string primitives *)
(* ================================================================== *)

Section StringFacts.

Lemma startswith_iff (s p : string) :
  startswith s p = true <-> exists r, s = (p ++ r)%string.
Proof.
  unfold startswith. revert s.
  induction p as [|a p IH]; intros s; simpl.
  - destruct s; split; eauto.
  - destruct s as [|b s]; simpl.
    + split; [discriminate | intros [r Hr]; discriminate].
    + destruct (ascii_dec a b) as [->|Hne].
      * split.
        -- intros H. apply IH in H as [r ->]. now exists r.
        -- intros [r Hr]. apply IH. exists r. now inversion Hr.
      * split; [discriminate | intros [r Hr]; inversion Hr; congruence].
Qed.

Lemma startswith_app (p r : string) : startswith (p ++ r) p = true.
Proof. apply startswith_iff. now exists r. Qed.

Lemma split_not_nil (s : string) : split s <> [].
Proof.
  induction s as [|c s IH]; simpl; [discriminate|].
  destruct (Ascii.eqb c slash); [discriminate|].
  destruct (split s); discriminate.
Qed.

Lemma join_cons (a : string) (l : list string) :
  l <> [] -> join (a :: l) = (a ++ "/" ++ join l)%string.
Proof. destruct l; [congruence | reflexivity]. Qed.

Lemma join_split (s : string) : join (split s) = s.
Proof.
  induction s as [|c s IH]; [reflexivity|]. simpl.
  destruct (Ascii.eqb_spec c slash) as [->|Hne].
  - rewrite join_cons by apply split_not_nil. simpl. now rewrite IH.
  - pose proof (split_not_nil s) as Hn.
    destruct (split s) as [|h t]; [congruence|].
    destruct t as [|h' t].
    + unfold join in *. simpl in *. congruence.
    + change (join (String c h :: h' :: t))
        with (String c h ++ "/" ++ join (h' :: t))%string.
      change (join (h :: h' :: t)) with (h ++ "/" ++ join (h' :: t))%string in IH.
      now rewrite <- IH.
Qed.

Lemma split_app_slash (a b : string) :
  split (a ++ "/" ++ b) = split a ++ split b.
Proof.
  induction a as [|c a IH]; [reflexivity|]. simpl.
  destruct (Ascii.eqb c slash).
  - simpl in IH. now rewrite IH.
  - simpl in IH. rewrite IH.
    pose proof (split_not_nil a) as Hn.
    destruct (split a); [congruence | reflexivity].
Qed.

Lemma append_assoc (a b c : string) : ((a ++ b) ++ c = a ++ (b ++ c))%string.
Proof. induction a; simpl; congruence. Qed.

Lemma length_append (a b : string) :
  String.length (a ++ b) = String.length a + String.length b.
Proof. induction a; simpl; [reflexivity | now rewrite IHa]. Qed.

Lemma join_app (a b : list string) :
  a <> [] -> b <> [] -> join (a ++ b) = (join a ++ "/" ++ join b)%string.
Proof.
  induction a as [|x a IH]; intros Ha Hb; [congruence|].
  destruct a as [|y a].
  - simpl app. now rewrite join_cons.
  - change ((x :: y :: a) ++ b) with (x :: ((y :: a) ++ b)).
    rewrite !join_cons by (simpl; discriminate).
    rewrite IH by (auto; discriminate).
    now rewrite !append_assoc.
Qed.

(** The order on strings. *)
Lemma ascii_compare_refl (a : ascii) : Ascii.compare a a = Eq.
Proof. unfold Ascii.compare. apply N.compare_refl. Qed.

Lemma compare_refl (s : string) : String.compare s s = Eq.
Proof. induction s; simpl; [reflexivity|]. now rewrite ascii_compare_refl. Qed.

Lemma compare_trans_lt (a b c : string) :
  String.compare a b = Lt -> String.compare b c = Lt -> String.compare a c = Lt.
Proof.
  revert b c. induction a as [|x a IH]; intros [|y b] [|z c]; simpl; try congruence.
  unfold Ascii.compare.
  destruct (N.compare_spec (N_of_ascii x) (N_of_ascii y)) as [Hxy|Hxy|Hxy];
    destruct (N.compare_spec (N_of_ascii y) (N_of_ascii z)) as [Hyz|Hyz|Hyz];
    try congruence; intros H1 H2.
  - rewrite Hxy, Hyz, N.compare_refl. eauto.
  - rewrite Hxy. now apply N.compare_lt_iff in Hyz as ->.
  - rewrite <- Hyz. now apply N.compare_lt_iff in Hxy as ->.
  - assert (Hxz : (N_of_ascii x < N_of_ascii z)%N) by lia.
    now apply N.compare_lt_iff in Hxz as ->.
Qed.

Lemma str_le_iff (a b : string) : str_le a b <-> str_lt a b \/ a = b.
Proof.
  unfold str_le, str_lt, String.leb, String.ltb. split.
  - destruct (String.compare a b) eqn:E; try discriminate; auto.
    right. now apply String.compare_eq_iff.
  - intros [H| ->]; [|now rewrite compare_refl].
    destruct (String.compare a b); congruence.
Qed.

Lemma str_lt_irrefl (a : string) : ~ str_lt a a.
Proof. unfold str_lt, String.ltb. now rewrite compare_refl. Qed.

Lemma str_lt_trans (a b c : string) : str_lt a b -> str_lt b c -> str_lt a c.
Proof.
  unfold str_lt, String.ltb. intros H1 H2.
  destruct (String.compare a b) eqn:E1; try discriminate.
  destruct (String.compare b c) eqn:E2; try discriminate.
  now rewrite (compare_trans_lt a b c).
Qed.

Lemma str_le_trans (a b c : string) : str_le a b -> str_le b c -> str_le a c.
Proof.
  rewrite !str_le_iff. intros [H1| ->] [H2| ->]; auto.
  left. eapply str_lt_trans; eauto.
Qed.

Lemma str_lt_app (p : string) (c : ascii) (r : string) :
  str_lt p (p ++ String c r).
Proof.
  unfold str_lt, String.ltb.
  induction p as [|x p IH]; simpl; [reflexivity|].
  now rewrite ascii_compare_refl.
Qed.

Lemma str_le_lt_false (a b : string) : str_le a b -> str_lt b a -> False.
Proof.
  rewrite str_le_iff. intros [H| ->] H'.
  - eapply str_lt_irrefl, str_lt_trans; eauto.
  - now apply str_lt_irrefl in H'.
Qed.

End StringFacts.

(* ================================================================== *)
(** ** Facts about dictionaries *)
(* ================================================================== *)

Section DictFacts.
Context {V : Type}.
Implicit Types (d : dict V) (k : string) (v : V).

Lemma dict_get_set_eq k v d : dict_get k (dict_set k v d) = Some v.
Proof.
  induction d as [|[k' v'] d IH]; simpl.
  - now rewrite String.eqb_refl.
  - destruct (String.eqb_spec k' k) as [->|Hne]; simpl.
    + now rewrite String.eqb_refl.
    + apply String.eqb_neq in Hne. now rewrite Hne.
Qed.

Lemma dict_get_set_ne k k' v d :
  k <> k' -> dict_get k' (dict_set k v d) = dict_get k' d.
Proof.
  intros Hne. induction d as [|[k0 v0] d IH]; simpl.
  - apply String.eqb_neq in Hne. now rewrite Hne.
  - destruct (String.eqb_spec k0 k) as [->|Hne0]; simpl.
    + apply String.eqb_neq in Hne. now rewrite Hne.
    + now rewrite IH.
Qed.

Lemma dict_get_In k v d : dict_get k d = Some v -> In (k, v) d.
Proof.
  induction d as [|[k' v'] d IH]; simpl; [discriminate|].
  destruct (String.eqb_spec k' k) as [->|Hne]; intros H.
  - left. congruence.
  - right. auto.
Qed.

Lemma dict_get_key k v d : dict_get k d = Some v -> In k (keys d).
Proof.
  intros H. apply dict_get_In in H. unfold keys.
  change k with (fst (k, v)). now apply in_map.
Qed.

Lemma keys_dict_set k v d :
  keys (dict_set k v d) = if existsb (String.eqb k) (keys d) then keys d else keys d ++ [k].
Proof.
  induction d as [|[k' v'] d IH]; simpl; [reflexivity|].
  rewrite (String.eqb_sym k k').
  destruct (String.eqb_spec k' k) as [->|Hne]; simpl; [reflexivity|].
  rewrite IH. now destruct (existsb (String.eqb k) (keys d)).
Qed.

Lemma existsb_eqb_In (x : string) (l : list string) :
  existsb (String.eqb x) l = true <-> In x l.
Proof.
  rewrite existsb_exists. split.
  - intros [y [Hy He]]. apply String.eqb_eq in He. now subst.
  - intros H. exists x. split; [assumption | apply String.eqb_refl].
Qed.

Lemma NoDup_snoc (x : string) (l : list string) :
  NoDup l -> ~ In x l -> NoDup (l ++ [x]).
Proof.
  intros Hl Hx. apply NoDup_app; [assumption | repeat constructor; simpl; tauto |].
  intros y Hy [<-|[]]. contradiction.
Qed.

Lemma NoDup_keys_set k v d : NoDup (keys d) -> NoDup (keys (dict_set k v d)).
Proof.
  intros H. rewrite keys_dict_set.
  destruct (existsb (String.eqb k) (keys d)) eqn:E; [assumption|].
  apply NoDup_snoc; [assumption|].
  intros Hin. apply existsb_eqb_In in Hin. congruence.
Qed.

End DictFacts.

(* ================================================================== *)
(** ** Key sequences *)
(* ================================================================== *)

Lemma diverge_sym (a b : list string) : diverge a b -> diverge b a.
Proof. induction 1; constructor; congruence. Qed.

Lemma key_sequences_cases (a b : list string) :
  a <> [] -> b <> [] ->
  a = b \/ proper_prefix a b \/ proper_prefix b a \/ diverge a b.
Proof.
  revert b. induction a as [|x a IH]; intros [|y b] Ha Hb; try congruence.
  destruct (string_dec x y) as [->|Hne].
  2:{ right; right; right. now constructor. }
  destruct a as [|x' a], b as [|y' b].
  - now left.
  - right; left. exists (y' :: b). split; [discriminate | reflexivity].
  - right; right; left. exists (x' :: a). split; [discriminate | reflexivity].
  - destruct (IH (y' :: b)) as [H|[[r [Hr H]]|[[r [Hr H]]|H]]]; try discriminate.
    + left. congruence.
    + right; left. exists r. split; [assumption|]. simpl. now rewrite H.
    + right; right; left. exists r. split; [assumption|]. simpl. now rewrite H.
    + right; right; right. now constructor.
Qed.

Lemma proper_prefix_cons (k : string) (a b : list string) :
  proper_prefix (k :: a) b -> exists b', b = k :: b' /\ proper_prefix a b'.
Proof. intros [r [Hr ->]]. exists (a ++ r). split; [reflexivity | now exists r]. Qed.

(* ================================================================== *)
(** ** Walking a tree *)
(* ================================================================== *)

Lemma walk_last (k : string) (t : tree) (ni : option node) :
  walk [k] t ni = dict_get k t.
Proof. simpl. destruct (dict_get k t) as [[?|? ?]|]; reflexivity. Qed.

Lemma walk_step (k : string) (r : list string) (t : tree) (ni : option node) :
  r <> [] ->
  walk (k :: r) t ni =
  match dict_get k t with
  | Some (Folder _ children) => node_at r children
  | _ => None
  end.
Proof.
  intros Hr. destruct r as [|k' r]; [congruence|]. unfold node_at. simpl.
  destruct (dict_get k t) as [[?|? ?]|]; reflexivity.
Qed.

Lemma node_at_nil_tree (ks : list string) : node_at ks [] = None.
Proof. destruct ks; reflexivity. Qed.

Lemma get_node_details_node_at (path_key : string) (t : tree) :
  get_node_details_from_tree path_key t = node_at (split (strip path_key)) t.
Proof. reflexivity. Qed.

(* ================================================================== *)
(** ** One insertion into the tree *)
(* ================================================================== *)

Section AddPath.
Variable path_str : string.

Lemma add_path_last (done : list string) (k : string) (t : tree) :
  add_path path_str done [k] t = dict_set k (File path_str) t.
Proof. reflexivity. Qed.

Lemma add_path_step (done : list string) (k : string) (r : list string) (t : tree) :
  r <> [] ->
  add_path path_str done (k :: r) t =
  dict_set k (Folder (descend_path done k t)
                     (add_path path_str (done ++ [k]) r (descend_children k t))) t.
Proof.
  intros Hr. destruct r as [|k' r]; [congruence|].
  unfold descend_path, descend_children.
  change (add_path path_str done (k :: k' :: r) t) with
    (match dict_get k t with
     | None =>
         dict_set k (Folder (join (done ++ [k]) ++ "/")%string
                            (add_path path_str (done ++ [k]) (k' :: r) [])) t
     | Some (File _) =>
         dict_set k (Folder (join (done ++ [k]) ++ "/")%string
                            (add_path path_str (done ++ [k]) (k' :: r) [])) t
     | Some (Folder p children) =>
         dict_set k (Folder p (add_path path_str (done ++ [k]) (k' :: r) children)) t
     end).
  destruct (dict_get k t) as [[?|? ?]|]; reflexivity.
Qed.

Lemma node_at_descend (k : string) (ks : list string) (t : tree) :
  ks <> [] ->
  node_at (k :: ks) t = node_at ks (descend_children k t).
Proof.
  intros Hks. unfold node_at at 1. rewrite walk_step by assumption.
  unfold descend_children.
  destruct (dict_get k t) as [[?|? ?]|]; auto using node_at_nil_tree.
Qed.

(** The inserted path ends in a File node carrying [path_str]. *)
Lemma node_at_add_path_same (ks done : list string) (t : tree) :
  ks <> [] -> node_at ks (add_path path_str done ks t) = Some (File path_str).
Proof.
  revert done t. induction ks as [|k r IH]; intros done t Hks; [congruence|].
  destruct r as [|k' r].
  - rewrite add_path_last. unfold node_at. rewrite walk_last.
    apply dict_get_set_eq.
  - rewrite add_path_step by discriminate.
    unfold node_at. rewrite walk_step by discriminate.
    rewrite dict_get_set_eq. apply IH. discriminate.
Qed.

(** Every segment above it is a Folder node. *)
Lemma node_at_add_path_above (ks ks' done : list string) (t : tree) :
  ks' <> [] -> proper_prefix ks' ks ->
  exists fp ch, node_at ks' (add_path path_str done ks t) = Some (Folder fp ch).
Proof.
  revert ks' done t. induction ks as [|k r IH]; intros ks' done t Hne [s [Hs Heq]].
  - symmetry in Heq. apply app_eq_nil in Heq as [_ ->]. congruence.
  - destruct ks' as [|k0 r0]; [congruence|].
    simpl in Heq. inversion Heq; subst k0 r.
    rewrite add_path_step by (destruct r0; [assumption | discriminate]).
    destruct r0 as [|k1 r1].
    + unfold node_at. rewrite walk_last, dict_get_set_eq. eauto.
    + unfold node_at. rewrite walk_step by discriminate.
      rewrite dict_get_set_eq. apply IH; [discriminate|]. now exists s.
Qed.

(** Nothing remains below it. *)
Lemma node_at_add_path_below (ks ks' done : list string) (t : tree) :
  ks <> [] -> proper_prefix ks ks' ->
  node_at ks' (add_path path_str done ks t) = None.
Proof.
  revert ks' done t. induction ks as [|k r IH]; intros ks' done t Hne Hpre; [congruence|].
  apply proper_prefix_cons in Hpre as [b' [-> Hpre]].
  assert (Hb' : b' <> []).
  { destruct Hpre as [s [Hs ->]]. destruct r; [assumption | discriminate]. }
  unfold node_at. rewrite walk_step by assumption.
  destruct r as [|k' r].
  - rewrite add_path_last, dict_get_set_eq. reflexivity.
  - rewrite add_path_step by discriminate. rewrite dict_get_set_eq.
    apply IH; [discriminate | assumption].
Qed.

Lemma add_path_is_set (done : list string) (k : string) (r : list string) (t : tree) :
  exists n, add_path path_str done (k :: r) t = dict_set k n t.
Proof.
  destruct r as [|k' r]; [eexists; apply add_path_last|].
  eexists. apply add_path_step. discriminate.
Qed.

(** Paths that part ways with it see the tree they saw before. *)
Lemma node_at_add_path_diverge (ks ks' done : list string) (t : tree) :
  diverge ks ks' ->
  node_at ks' (add_path path_str done ks t) = node_at ks' t.
Proof.
  intros Hd. revert done t.
  induction Hd as [x y ra rb Hxy | k a b Hd IH]; intros done t.
  - destruct (add_path_is_set done x ra t) as [n ->].
    unfold node_at. destruct rb as [|y' rb].
    + rewrite !walk_last. now apply dict_get_set_ne.
    + rewrite !walk_step by discriminate. now rewrite dict_get_set_ne.
  - assert (Ha : a <> []) by (inversion Hd; discriminate).
    assert (Hb : b <> []) by (inversion Hd; discriminate).
    rewrite add_path_step by assumption.
    rewrite (node_at_descend k b t) by assumption.
    unfold node_at at 1. rewrite walk_step by assumption.
    rewrite dict_get_set_eq. apply IH.
Qed.

End AddPath.

(* ================================================================== *)
(** ** Well-formed trees: keys are unique in every dictionary *)
(* ================================================================== *)

Lemma wf_node_folder (p : string) (ch : tree) : wf_node (Folder p ch) <-> wf_tree ch.
Proof.
  unfold wf_tree. simpl.
  assert (H : (fix all (d : list (string * node)) : Prop :=
                 match d with
                 | [] => True
                 | (_, c) :: r => wf_node c /\ all r
                 end) ch <-> wf_children ch).
  { induction ch as [|[k c] ch IH]; simpl; tauto. }
  tauto.
Qed.

Lemma node_file_paths_folder (p : string) (ch : tree) :
  node_file_paths (Folder p ch) = file_paths ch.
Proof. simpl. induction ch as [|[k c] ch IH]; simpl; congruence. Qed.

Lemma wf_children_In (t : tree) (k : string) (n : node) :
  wf_children t -> In (k, n) t -> wf_node n.
Proof.
  induction t as [|[k' c] t IH]; simpl; [tauto|].
  intros [Hc Ht] [Heq|Hin]; [congruence | auto].
Qed.

Lemma wf_children_set (t : tree) (k : string) (n : node) :
  wf_children t -> wf_node n -> wf_children (dict_set k n t).
Proof.
  induction t as [|[k' c] t IH]; simpl; [tauto|].
  intros [Hc Ht] Hn. destruct (String.eqb k' k); simpl; auto.
Qed.

Lemma wf_tree_set (t : tree) (k : string) (n : node) :
  wf_tree t -> wf_node n -> wf_tree (dict_set k n t).
Proof.
  intros [Hk Hc] Hn. split; [now apply NoDup_keys_set | now apply wf_children_set].
Qed.

Lemma wf_tree_nil : wf_tree [].
Proof. split; [constructor | exact I]. Qed.

Lemma wf_descend_children (k : string) (t : tree) :
  wf_tree t -> wf_tree (descend_children k t).
Proof.
  intros [Hk Hc]. unfold descend_children.
  destruct (dict_get k t) as [[?|p ch]|] eqn:E; try apply wf_tree_nil.
  apply dict_get_In in E. apply (proj1 (wf_node_folder p ch)).
  eapply wf_children_In; eauto.
Qed.

Lemma wf_add_path (path_str : string) (ks done : list string) (t : tree) :
  wf_tree t -> wf_tree (add_path path_str done ks t).
Proof.
  revert done t. induction ks as [|k r IH]; intros done t Ht; [assumption|].
  destruct r as [|k' r].
  - rewrite add_path_last. now apply wf_tree_set.
  - rewrite add_path_step by discriminate.
    apply wf_tree_set; [assumption|].
    apply (proj2 (wf_node_folder _ _)), IH. now apply wf_descend_children.
Qed.

Lemma wf_build (namelist : list string) : wf_tree (build_file_tree_from_zip namelist).
Proof.
  unfold build_file_tree_from_zip.
  generalize (sorted (file_names namelist)). intros l.
  assert (H : forall t, wf_tree t ->
    wf_tree (fold_left (fun t p => add_path p [] (split p) t) l t)).
  { induction l as [|p l IH]; intros t Ht; simpl; [assumption|].
    apply IH. now apply wf_add_path. }
  apply H, wf_tree_nil.
Qed.

(* ================================================================== *)
(** ** The File nodes of a tree *)
(* ================================================================== *)

Lemma In_file_paths (t : tree) (p : string) :
  In p (file_paths t) <-> exists k c, In (k, c) t /\ In p (node_file_paths c).
Proof.
  induction t as [|[k c] t IH]; simpl.
  - split; [tauto | intros [k [c [[] _]]]].
  - rewrite in_app_iff, IH. split.
    + intros [H|[k' [c' [Hin H]]]]; [exists k, c; auto | exists k', c'; auto].
    + intros [k' [c' [[Heq|Hin] H]]]; [left; congruence | right; eauto].
Qed.

Lemma node_at_file_paths (ks : list string) (t : tree) (p : string) :
  node_at ks t = Some (File p) -> In p (file_paths t).
Proof.
  revert t. induction ks as [|k r IH]; intros t; [discriminate|].
  destruct r as [|k' r].
  - unfold node_at. rewrite walk_last. intros H%dict_get_In.
    apply In_file_paths. exists k, (File p). simpl. auto.
  - unfold node_at. rewrite walk_step by discriminate.
    destruct (dict_get k t) as [[?|fp ch]|] eqn:E; try discriminate.
    intros H%IH. apply In_file_paths. exists k, (Folder fp ch).
    split; [now apply dict_get_In | now rewrite node_file_paths_folder].
Qed.

Lemma file_paths_node_at (t : tree) :
  wf_tree t -> forall p, In p (file_paths t) ->
  exists ks, node_at ks t = Some (File p).
Proof.
  apply (tree_node_ind
    (fun n => wf_node n -> forall p, In p (node_file_paths n) ->
       n = File p \/
       exists fp ch ks, n = Folder fp ch /\ node_at ks ch = Some (File p))
    (fun t => wf_tree t -> forall p, In p (file_paths t) ->
       exists ks, node_at ks t = Some (File p))).
  - intros q _ p [<-|[]]. now left.
  - intros fp ch IH Hwf p Hin. right.
    rewrite node_file_paths_folder in Hin.
    pose proof (proj1 (wf_node_folder fp ch) Hwf) as Hwf'.
    destruct (IH Hwf' p Hin) as [ks Hks].
    now exists fp, ch, ks.
  - intros _ p [].
  - intros k c r IHc IHr [Hnd [Hc Hr]] p Hin. simpl in Hin.
    inversion Hnd as [|? ? Hnot Hnd']; subst.
    apply in_app_iff in Hin as [Hin|Hin].
    + destruct (IHc Hc p Hin) as [->|[fp [ch [ks [-> Hks]]]]].
      * exists [k]. unfold node_at. rewrite walk_last. simpl.
        now rewrite String.eqb_refl.
      * exists (k :: ks). unfold node_at.
        rewrite walk_step by (intros ->; discriminate). simpl.
        now rewrite String.eqb_refl.
    + destruct (IHr (conj Hnd' Hr) p Hin) as [ks Hks].
      exists ks. destruct ks as [|k0 r0]; [discriminate|].
      assert (Hk0 : In k0 (keys r)).
      { revert Hks. unfold node_at. destruct r0.
        - rewrite walk_last. apply dict_get_key.
        - rewrite walk_step by discriminate.
          destruct (dict_get k0 r) eqn:E; [|discriminate].
          intros _. eapply dict_get_key; eauto. }
      assert (Hne : (k =? k0)%string = false).
      { apply String.eqb_neq. intros ->. contradiction. }
      revert Hks. unfold node_at. destruct r0.
      * rewrite !walk_last. simpl. now rewrite Hne.
      * rewrite !walk_step by discriminate. simpl. now rewrite Hne.
Qed.

Lemma file_paths_iff (t : tree) (p : string) :
  wf_tree t ->
  In p (file_paths t) <-> exists ks, node_at ks t = Some (File p).
Proof.
  intros Hwf. split.
  - now apply file_paths_node_at.
  - intros [ks H]. eapply node_at_file_paths; eauto.
Qed.

(* ================================================================== *)
(** ** The invariant of the build loop *)
(* ================================================================== *)

Lemma split_inj (p q : string) : split p = split q -> p = q.
Proof. intros H. rewrite <- (join_split p), <- (join_split q). now rewrite H. Qed.

Lemma proper_prefix_split (p q : string) :
  proper_prefix (split p) (split q) <->
  exists r, q = (p ++ "/" ++ r)%string.
Proof.
  split.
  - intros [r [Hr H]]. exists (join r).
    rewrite <- (join_split q), H, join_app by (auto using split_not_nil).
    now rewrite join_split.
  - intros [r ->]. exists (split r). split; [apply split_not_nil|].
    apply split_app_slash.
Qed.

Lemma proper_prefix_split_lt (p q : string) :
  proper_prefix (split p) (split q) -> str_lt p q.
Proof. intros [r ->]%proper_prefix_split. apply str_lt_app. Qed.

Lemma proper_prefix_trans (a b c : list string) :
  proper_prefix a b -> proper_prefix b c -> proper_prefix a c.
Proof.
  intros [r [Hr ->]] [s [Hs ->]]. exists (r ++ s). split.
  - destruct r; [congruence | discriminate].
  - now rewrite app_assoc.
Qed.

Lemma tree_inv_nil : tree_inv [] [].
Proof.
  split.
  - intros ks p H. rewrite node_at_nil_tree in H. discriminate.
  - intros q ks [].
  - intros p [].
Qed.

Lemma tree_inv_add (t : tree) (l : list string) (p : string) :
  tree_inv t l -> (forall q, In q l -> str_le q p) ->
  tree_inv (add_path p [] (split p) t) (p :: l).
Proof.
  intros [Hfile Hfolder Hleaf] Hle.
  pose proof (split_not_nil p) as Hp.
  assert (Hlow : forall q, In q l -> proper_prefix (split p) (split q) -> False).
  { intros q Hq Hpre. apply proper_prefix_split_lt in Hpre.
    eapply str_le_lt_false; eauto. }
  split.
  - intros ks p' H.
    assert (Hks : ks <> []) by (intros ->; discriminate).
    destruct (key_sequences_cases (split p) ks Hp Hks) as [E|[E|[E|E]]].
    + subst ks. rewrite node_at_add_path_same in H by assumption.
      inversion H; subst. simpl. auto.
    + rewrite node_at_add_path_below in H by assumption. discriminate.
    + destruct (node_at_add_path_above p (split p) ks [] t Hks E) as [fp [ch E']].
      congruence.
    + rewrite node_at_add_path_diverge in H by assumption.
      destruct (Hfile ks p' H). simpl. auto.
  - intros q ks [<-|Hq] Hks Hpre.
    + now apply node_at_add_path_above.
    + destruct (key_sequences_cases (split p) ks Hp Hks) as [E|[E|[E|E]]].
      * subst ks. exfalso. eauto.
      * exfalso. eapply Hlow; eauto using proper_prefix_trans.
      * now apply node_at_add_path_above.
      * rewrite node_at_add_path_diverge by assumption. eauto.
  - intros p' [<-|Hp'].
    + left. now apply node_at_add_path_same.
    + destruct (Hleaf p' Hp') as [H|[q [Hq Hpre]]].
      2:{ right. exists q. simpl. auto. }
      destruct (key_sequences_cases (split p) (split p') Hp (split_not_nil p'))
        as [E|[E|[E|E]]].
      * apply split_inj in E. subst p'. left. now apply node_at_add_path_same.
      * exfalso. eauto.
      * right. exists p. simpl. auto.
      * left. now rewrite node_at_add_path_diverge.
Qed.

Lemma tree_inv_ext (t : tree) (l l' : list string) :
  (forall x, In x l <-> In x l') -> tree_inv t l -> tree_inv t l'.
Proof.
  intros Heq [Hfile Hfolder Hleaf]. split.
  - intros ks p H. destruct (Hfile ks p H). split; [now apply Heq | assumption].
  - intros q ks Hq. apply Hfolder. now apply Heq.
  - intros p Hp. destruct (Hleaf p) as [H|[q [Hq H]]]; [now apply Heq | now left |].
    right. exists q. split; [now apply Heq | assumption].
Qed.

Lemma tree_inv_fold (l : list string) :
  StronglySorted str_le l ->
  forall (t : tree) (done : list string),
    tree_inv t done ->
    (forall q x, In q done -> In x l -> str_le q x) ->
    tree_inv (fold_left (fun t p => add_path p [] (split p) t) l t) (rev l ++ done).
Proof.
  induction 1 as [|p l Hs IH Hall]; intros t done Hinv Hle; [assumption|].
  simpl. rewrite <- app_assoc. simpl. apply IH.
  - apply tree_inv_add; [assumption|]. intros q Hq. apply Hle; simpl; auto.
  - intros q x [<-|Hq] Hx.
    + rewrite Forall_forall in Hall. now apply Hall.
    + apply Hle; simpl; auto.
Qed.

Lemma sorted_strongly (l : list string) : StronglySorted str_le (sorted l).
Proof.
  apply StringSort.StronglySorted_sort.
  intros a b c. apply str_le_trans.
Qed.

Lemma In_sorted (l : list string) (x : string) : In x (sorted l) <-> In x l.
Proof.
  split; apply Permutation_in;
    [apply Permutation_sym|]; apply StringSort.Permuted_sort.
Qed.

Lemma build_inv (namelist : list string) :
  tree_inv (build_file_tree_from_zip namelist) (file_names namelist).
Proof.
  apply (tree_inv_ext _ (rev (sorted (file_names namelist)) ++ [])).
  - intros x. rewrite app_nil_r, <- in_rev. apply In_sorted.
  - apply tree_inv_fold; [apply sorted_strongly | apply tree_inv_nil |].
    intros q x [].
Qed.

(** Which paths end up on a File node. *)
Lemma build_file_paths (namelist : list string) (p : string) :
  In p (file_paths (build_file_tree_from_zip namelist)) <->
  In p (file_names namelist) /\
  forall q, In q (file_names namelist) -> startswith q (p ++ "/") = false.
Proof.
  destruct (build_inv namelist) as [Hfile Hfolder Hleaf].
  rewrite file_paths_iff by apply wf_build. split.
  - intros [ks H]. destruct (Hfile ks p H) as [Hin ->]. split; [assumption|].
    intros q Hq. destruct (startswith q (p ++ "/")) eqn:E; [|reflexivity].
    exfalso. apply startswith_iff in E as [r ->].
    destruct (Hfolder _ (split p) Hq (split_not_nil p)) as [fp [ch E]].
    + apply proper_prefix_split. exists r. now rewrite append_assoc.
    + congruence.
  - intros [Hin Hno]. exists (split p).
    destruct (Hleaf p Hin) as [H|[q [Hq Hpre]]]; [assumption|].
    exfalso. apply proper_prefix_split in Hpre as [r ->].
    specialize (Hno _ Hq).
    rewrite <- append_assoc, startswith_app in Hno. discriminate.
Qed.

(* ================================================================== *)
(** ** Resolving a selection *)
(* ================================================================== *)

Lemma In_set_add (x y : string) (s : list string) :
  In x (set_add y s) <-> x = y \/ In x s.
Proof.
  unfold set_add. destruct (existsb (String.eqb y) s) eqn:E.
  - apply existsb_eqb_In in E. split; [auto | intros [->|H]; auto].
  - rewrite in_app_iff. simpl. intuition congruence.
Qed.

Lemma NoDup_set_add (y : string) (s : list string) : NoDup s -> NoDup (set_add y s).
Proof.
  intros H. unfold set_add. destruct (existsb (String.eqb y) s) eqn:E; [assumption|].
  apply NoDup_snoc; [assumption|].
  intros Hin. apply existsb_eqb_In in Hin. congruence.
Qed.

Section FolderScan.
Variable folder_prefix_path : string.

Lemma In_scan (files acc : list string) (x : string) :
  In x (fold_left (add_if_under folder_prefix_path) files acc) <->
  In x acc \/ (In x files /\ startswith x folder_prefix_path = true).
Proof.
  revert acc. induction files as [|f files IH]; intros acc; simpl.
  - tauto.
  - rewrite IH. unfold add_if_under.
    destruct (startswith f folder_prefix_path) eqn:E.
    + rewrite In_set_add. split.
      * intros [[->|H]|[H1 H2]]; auto.
      * intros [H|[[->|H1] H2]]; auto.
    + split.
      * intros [H|[H1 H2]]; auto.
      * intros [H|[[->|H1] H2]]; auto. congruence.
Qed.

Lemma NoDup_scan (files acc : list string) :
  NoDup acc -> NoDup (fold_left (add_if_under folder_prefix_path) files acc).
Proof.
  revert acc. induction files as [|f files IH]; intros acc H; simpl; [assumption|].
  apply IH. unfold add_if_under. destruct (startswith f folder_prefix_path); [|assumption].
  now apply NoDup_set_add.
Qed.
End FolderScan.

Section Collect.
Variable files : list string.
Variable t : tree.

Lemma In_collect_step (acc : list string) (sel x : string) :
  In x (collect_step files t acc sel) <-> In x acc \/ contributes t files sel x.
Proof.
  unfold collect_step, contributes.
  destruct (get_node_details_from_tree sel t) as [[p|fp ch]|].
  - rewrite In_set_add. tauto.
  - apply In_scan.
  - tauto.
Qed.

Lemma NoDup_collect_step (acc : list string) (sel : string) :
  NoDup acc -> NoDup (collect_step files t acc sel).
Proof.
  intros H. unfold collect_step.
  destruct (get_node_details_from_tree sel t) as [[p|fp ch]|];
    auto using NoDup_set_add, NoDup_scan.
Qed.

Lemma In_collect_fold (sels acc : list string) (x : string) :
  In x (fold_left (collect_step files t) sels acc) <->
  In x acc \/ exists sel, In sel sels /\ contributes t files sel x.
Proof.
  revert acc. induction sels as [|s sels IH]; intros acc; simpl.
  - split; [auto | intros [H|[s [[] _]]]; assumption].
  - rewrite IH, In_collect_step. split.
    + intros [[H|H]|[s' [H1 H2]]]; eauto.
    + intros [H|[s' [[<-|H1] H2]]]; eauto.
Qed.

Lemma NoDup_collect_fold (sels acc : list string) :
  NoDup acc -> NoDup (fold_left (collect_step files t) sels acc).
Proof.
  revert acc. induction sels as [|s sels IH]; intros acc H; simpl; [assumption|].
  now apply IH, NoDup_collect_step.
Qed.
End Collect.

Lemma strictly_sorted (l : list string) :
  NoDup l -> StronglySorted str_lt (sorted l).
Proof.
  intros Hnd.
  assert (Hnd' : NoDup (sorted l)).
  { eapply Permutation_NoDup; [apply StringSort.Permuted_sort | assumption]. }
  pose proof (sorted_strongly l) as Hs.
  induction Hs as [|a r Hs IH Hall]; constructor.
  - apply IH. now inversion Hnd'.
  - inversion Hnd' as [|? ? Hnot _]; subst.
    rewrite Forall_forall in *. intros x Hx.
    destruct (proj1 (str_le_iff a x) (Hall x Hx)) as [H| ->]; [assumption | contradiction].
Qed.

Lemma strictly_sorted_NoDup (l : list string) : StronglySorted str_lt l -> NoDup l.
Proof.
  induction 1 as [|a r Hs IH Hall]; constructor; [|assumption].
  intros Hin. rewrite Forall_forall in Hall. eapply str_lt_irrefl; eauto.
Qed.

Lemma strictly_sorted_unique (l1 l2 : list string) :
  StronglySorted str_lt l1 -> StronglySorted str_lt l2 ->
  (forall x, In x l1 <-> In x l2) -> l1 = l2.
Proof.
  intros H1. revert l2. induction H1 as [|a r1 Hs1 IH Hall1]; intros l2 H2 Heq.
  - destruct l2 as [|b r2]; [reflexivity|]. destruct (proj2 (Heq b)). now left.
  - destruct H2 as [|b r2 Hs2 Hall2].
    { destruct (proj1 (Heq a)). now left. }
    rewrite Forall_forall in Hall1, Hall2.
    assert (Hab : a = b).
    { destruct (proj1 (Heq a)) as [E|Ha]; [now left | congruence |].
      destruct (proj2 (Heq b)) as [E|Hb]; [now left | congruence |].
      exfalso. eapply str_lt_irrefl, str_lt_trans; eauto. }
    subst b. f_equal. apply IH; [assumption|].
    intros x. split; intros Hx.
    + destruct (proj1 (Heq x)) as [E|H]; [now right | | assumption].
      subst x. exfalso. eapply str_lt_irrefl; eauto.
    + destruct (proj2 (Heq x)) as [E|H]; [now right | | assumption].
      subst x. exfalso. eapply str_lt_irrefl; eauto.
Qed.

Lemma collect_spec (sels namelist : list string) (t : tree) :
  StronglySorted str_lt (collect_final_selected_files sels namelist t) /\
  forall x, In x (collect_final_selected_files sels namelist t) <->
            exists sel, In sel sels /\ contributes t (file_names namelist) sel x.
Proof.
  unfold collect_final_selected_files. split.
  - apply strictly_sorted, NoDup_collect_fold. constructor.
  - intros x. rewrite In_sorted, In_collect_fold. simpl. tauto.
Qed.

Lemma collect_ext (sels1 sels2 namelist : list string) (t : tree) :
  (forall s, In s sels1 <-> In s sels2) ->
  collect_final_selected_files sels1 namelist t =
  collect_final_selected_files sels2 namelist t.
Proof.
  intros Heq.
  destruct (collect_spec sels1 namelist t) as [S1 M1].
  destruct (collect_spec sels2 namelist t) as [S2 M2].
  apply strictly_sorted_unique; try assumption.
  intros x. rewrite M1, M2.
  split; intros [s [Hs Hc]]; exists s; (split; [now apply Heq | assumption]).
Qed.

Lemma walk_fails_iff (ks : list string) (t : tree) :
  ks <> [] -> walk_fails ks t <-> node_at ks t = None.
Proof.
  intros Hks. split.
  - induction 1 as [k r t E | k r t p E Hr | k r t fp ch E Hr Hf IH].
    + unfold node_at. destruct r; [rewrite walk_last | rewrite walk_step by discriminate];
        now rewrite E.
    + unfold node_at. rewrite walk_step by assumption. now rewrite E.
    + unfold node_at. rewrite walk_step by assumption. rewrite E. auto.
  - revert t. induction ks as [|k r IH]; intros t; [congruence|].
    destruct r as [|k' r].
    + unfold node_at. rewrite walk_last. intros E. now constructor.
    + unfold node_at. rewrite walk_step by discriminate.
      destruct (dict_get k t) as [[p|fp ch]|] eqn:E; intros H.
      * eapply fails_through_file; eauto. discriminate.
      * eapply fails_deeper; eauto; [discriminate|]. apply IH; [discriminate | assumption].
      * now constructor.
Qed.

(** Stripping separators. *)
Lemma rstrip_app_slash (p : string) : rstrip (p ++ "/") = rstrip p.
Proof. induction p as [|c p IH]; simpl; [reflexivity | now rewrite IH]. Qed.

Lemma lstrip_app_slash (p : string) :
  lstrip (p ++ "/") =
  match lstrip p with EmptyString => EmptyString | s => (s ++ "/")%string end.
Proof.
  induction p as [|c p IH]; simpl; [reflexivity|].
  destruct (Ascii.eqb c slash); [assumption | reflexivity].
Qed.

Lemma strip_app_slash (p : string) : strip (p ++ "/") = strip p.
Proof.
  unfold strip. rewrite lstrip_app_slash.
  destruct (lstrip p) as [|c s] eqn:E; [reflexivity|].
  apply rstrip_app_slash.
Qed.

Lemma strip_slash_app (p : string) : strip ("/" ++ p) = strip p.
Proof. reflexivity. Qed.

(* ================================================================== *)
(** ** Reading the assembled document *)
(* ================================================================== *)

Section DictUpdate.
Context {V : Type}.
Implicit Types (d : dict V) (k : string) (v : V) (f : V -> V).

Lemma dict_get_update_eq k f d :
  dict_get k (dict_update k f d) = option_map f (dict_get k d).
Proof.
  induction d as [|[k' v'] d IH]; simpl; [reflexivity|].
  destruct (String.eqb_spec k' k) as [->|Hne]; simpl.
  - now rewrite String.eqb_refl.
  - apply String.eqb_neq in Hne. now rewrite Hne.
Qed.

Lemma dict_get_update_ne k k' f d :
  k <> k' -> dict_get k' (dict_update k f d) = dict_get k' d.
Proof.
  intros Hne. induction d as [|[k0 v0] d IH]; simpl; [reflexivity|].
  destruct (String.eqb_spec k0 k) as [->|Hne0]; simpl.
  - apply String.eqb_neq in Hne. now rewrite Hne.
  - now rewrite IH.
Qed.

Lemma dict_set_update_eq k v f d :
  dict_set k v (dict_update k f d) = dict_set k v d.
Proof.
  induction d as [|[k' v'] d IH]; simpl; [reflexivity|].
  destruct (String.eqb_spec k' k) as [->|Hne]; simpl.
  - now rewrite String.eqb_refl.
  - apply String.eqb_neq in Hne. rewrite Hne. now rewrite IH.
Qed.

Lemma dict_set_update_ne k k' v f d :
  k <> k' -> dict_set k' v (dict_update k f d) = dict_update k f (dict_set k' v d).
Proof.
  intros Hne. induction d as [|[k0 v0] d IH]; simpl.
  - apply String.eqb_neq in Hne. rewrite String.eqb_sym in Hne. now rewrite Hne.
  - destruct (String.eqb_spec k0 k) as [->|Hne0]; simpl.
    + apply String.eqb_neq in Hne. rewrite Hne. simpl.
      now rewrite String.eqb_refl.
    + destruct (String.eqb_spec k0 k') as [->|Hne1]; simpl.
      * apply String.eqb_neq in Hne0. now rewrite Hne0.
      * apply String.eqb_neq in Hne0. rewrite Hne0. now rewrite IH.
Qed.

Lemma dict_update_set k v f d :
  dict_update k f (dict_set k v d) = dict_set k (f v) d.
Proof.
  induction d as [|[k' v'] d IH]; simpl.
  - now rewrite String.eqb_refl.
  - destruct (String.eqb_spec k' k) as [->|Hne]; simpl.
    + now rewrite String.eqb_refl.
    + apply String.eqb_neq in Hne. rewrite Hne. now rewrite IH.
Qed.
End DictUpdate.

Section SetPath.
Import App.

Lemma set_path_last (k c : string) (d : dict json) :
  set_path [k] c d = dict_set k (JStr c) d.
Proof. reflexivity. Qed.

Lemma set_path_step (k : string) (r : list string) (c : string) (d : dict json) :
  r <> [] ->
  set_path (k :: r) c d = dict_set k (JObj (set_path r c (sub_mapping k d))) d.
Proof.
  intros Hr. destruct r as [|k' r]; [congruence|]. unfold sub_mapping.
  change (set_path (k :: k' :: r) c d) with
    (match dict_get k d with
     | Some (JObj sub) => dict_set k (JObj (set_path (k' :: r) c sub)) d
     | _ => dict_set k (JObj (set_path (k' :: r) c [])) d
     end).
  destruct (dict_get k d) as [[?|?]|]; reflexivity.
Qed.

Lemma json_at_last (k : string) (d : dict json) : json_at [k] d = dict_get k d.
Proof. simpl. destruct (dict_get k d) as [[?|?]|]; reflexivity. Qed.

Lemma json_at_step (k : string) (r : list string) (d : dict json) :
  r <> [] ->
  json_at (k :: r) d =
  match dict_get k d with Some (JObj sub) => json_at r sub | _ => None end.
Proof.
  intros Hr. destruct r as [|k' r]; [congruence|]. simpl.
  destruct (dict_get k d) as [[?|?]|]; reflexivity.
Qed.

Lemma json_at_sub_mapping (k : string) (r : list string) (d : dict json) :
  r <> [] -> json_at (k :: r) d = json_at r (sub_mapping k d).
Proof.
  intros Hr. rewrite json_at_step by assumption. unfold sub_mapping.
  destruct (dict_get k d) as [[?|?]|]; try reflexivity; now destruct r.
Qed.

(** The inserted file is a leaf holding its text. *)
Lemma json_at_set_path_same (ks : list string) (c : string) (d : dict json) :
  ks <> [] -> json_at ks (set_path ks c d) = Some (JStr c).
Proof.
  revert d. induction ks as [|k r IH]; intros d Hks; [congruence|].
  destruct r as [|k' r].
  - rewrite set_path_last, json_at_last. apply dict_get_set_eq.
  - rewrite set_path_step, json_at_step by discriminate.
    rewrite dict_get_set_eq. apply IH. discriminate.
Qed.

Lemma set_path_is_set (k : string) (r : list string) (c : string) (d : dict json) :
  exists v, set_path (k :: r) c d = dict_set k v d.
Proof.
  destruct r as [|k' r]; [eexists; apply set_path_last|].
  eexists. apply set_path_step. discriminate.
Qed.

(** Key paths that part ways with it are left as they were. *)
Lemma json_at_set_path_diverge (ks ks' : list string) (c : string) (d : dict json) :
  diverge ks ks' -> json_at ks' (set_path ks c d) = json_at ks' d.
Proof.
  intros Hd. revert d.
  induction Hd as [x y ra rb Hxy | k a b Hd IH]; intros d.
  - destruct (set_path_is_set x ra c d) as [v ->].
    destruct rb as [|y' rb].
    + rewrite !json_at_last. now apply dict_get_set_ne.
    + rewrite !json_at_step by discriminate. now rewrite dict_get_set_ne.
  - assert (Ha : a <> []) by (inversion Hd; discriminate).
    assert (Hb : b <> []) by (inversion Hd; discriminate).
    rewrite set_path_step by assumption.
    rewrite (json_at_sub_mapping k b d) by assumption.
    rewrite json_at_step by assumption.
    rewrite dict_get_set_eq. apply IH.
Qed.

(** A leaf in the way of a longer path gives place to a mapping that
    starts empty and receives the remaining segments. *)
Lemma json_at_set_path_collision (ks rest : list string) (s c : string)
      (d : dict json) :
  rest <> [] -> json_at ks d = Some (JStr s) ->
  json_at ks (set_path (ks ++ rest) c d) = Some (JObj (set_path rest c [])).
Proof.
  intros Hrest. revert d. induction ks as [|k r IH]; intros d; [discriminate|].
  destruct r as [|k' r].
  - rewrite json_at_last. intros E. simpl app.
    rewrite set_path_step by assumption. rewrite json_at_last, dict_get_set_eq.
    unfold sub_mapping. now rewrite E.
  - rewrite json_at_sub_mapping by discriminate. intros E.
    change ((k :: k' :: r) ++ rest) with (k :: ((k' :: r) ++ rest)).
    rewrite set_path_step by discriminate.
    rewrite json_at_step by discriminate. rewrite dict_get_set_eq.
    now apply IH.
Qed.

Lemma retext_nil_dict (ks : list string) (s : string) : retext ks s [] = [].
Proof. destruct ks; reflexivity. Qed.

Lemma retext_set_path (ks : list string) (s s' : string) (d : dict json) :
  ks <> [] -> retext ks s' (set_path ks s d) = set_path ks s' d.
Proof.
  revert d. induction ks as [|k r IH]; intros d Hks; [congruence|].
  destruct r as [|k' r].
  - rewrite !set_path_last. simpl. now rewrite dict_update_set.
  - rewrite (set_path_step k (k' :: r) s d), (set_path_step k (k' :: r) s' d)
      by discriminate.
    change (retext (k :: k' :: r) s' ?x) with
      (dict_update k (fun v => match v with
                               | JObj m => JObj (retext (k' :: r) s' m)
                               | _ => v
                               end) x).
    rewrite dict_update_set. now rewrite IH by discriminate.
Qed.

Lemma set_path_retext_diverge (ks t : list string) (s c : string) (d : dict json) :
  diverge ks t ->
  set_path t c (retext ks s d) = retext ks s (set_path t c d).
Proof.
  intros Hd. revert d.
  induction Hd as [x y ra rb Hxy | k a b Hd IH]; intros d.
  - destruct rb as [|y' rb].
    + rewrite !set_path_last. simpl. now apply dict_set_update_ne.
    + rewrite (set_path_step y (y' :: rb) c d),
        (set_path_step y (y' :: rb) c (retext (x :: ra) s d)) by discriminate.
      simpl. unfold sub_mapping. rewrite dict_get_update_ne by assumption.
      now apply dict_set_update_ne.
  - assert (Ha : a <> []) by (inversion Hd; discriminate).
    assert (Hb : b <> []) by (inversion Hd; discriminate).
    rewrite (set_path_step k b c d), (set_path_step k b c (retext (k :: a) s d))
      by assumption.
    destruct a as [|a0 a]; [congruence|].
    change (retext (k :: a0 :: a) s ?x) with
      (dict_update k (fun v => match v with
                               | JObj m => JObj (retext (a0 :: a) s m)
                               | _ => v
                               end) x).
    rewrite dict_set_update_eq, dict_update_set. f_equal. f_equal.
    unfold sub_mapping. rewrite dict_get_update_eq.
    destruct (dict_get k d) as [[?|m]|]; cbn [option_map].
    + rewrite <- IH. now rewrite retext_nil_dict.
    + apply IH.
    + rewrite <- IH. now rewrite retext_nil_dict.
Qed.

Lemma set_path_retext_collision (ks rest : list string) (s c : string)
      (d : dict json) :
  ks <> [] -> rest <> [] ->
  set_path (ks ++ rest) c (retext ks s d) = set_path (ks ++ rest) c d.
Proof.
  intros Hks Hrest. revert d. induction ks as [|k r IH]; intros d; [congruence|].
  destruct r as [|k' r].
  - simpl app.
    rewrite (set_path_step k rest c d), (set_path_step k rest c (retext [k] s d))
      by assumption.
    simpl. rewrite dict_set_update_eq. f_equal. f_equal. f_equal.
    unfold sub_mapping. rewrite dict_get_update_eq.
    destruct (dict_get k d) as [[?|m]|]; reflexivity.
  - change ((k :: k' :: r) ++ rest) with (k :: ((k' :: r) ++ rest)).
    rewrite (set_path_step k ((k' :: r) ++ rest) c d),
      (set_path_step k ((k' :: r) ++ rest) c (retext (k :: k' :: r) s d))
      by discriminate.
    change (retext (k :: k' :: r) s ?x) with
      (dict_update k (fun v => match v with
                               | JObj m => JObj (retext (k' :: r) s m)
                               | _ => v
                               end) x).
    rewrite dict_set_update_eq. f_equal. f_equal.
    unfold sub_mapping. rewrite dict_get_update_eq.
    destruct (dict_get k d) as [[?|m]|]; cbn [option_map]; try reflexivity.
    apply IH. discriminate.
Qed.

End SetPath.

(* ================================================================== *)
(** ** The two implementations side by side *)
(* ================================================================== *)

Lemma nonempty_true (s : string) : nonempty s = true <-> s <> "".
Proof.
  unfold nonempty. destruct (String.eqb_spec s ""); simpl; split; congruence.
Qed.

Lemma filter_nonempty_last (l : list string) :
  last l "" <> "" -> filter nonempty l <> [].
Proof.
  induction l as [|a l IH]; simpl; [congruence|].
  destruct l as [|b l].
  - intros H. apply nonempty_true in H. now rewrite H.
  - intros H. destruct (nonempty a); [discriminate | auto].
Qed.

Lemma zip2_set_path (segments : list string) (c : string) (d : dict json) :
  last segments "" <> "" ->
  Zip2.set_path segments c d = App.set_path (filter nonempty segments) c d.
Proof.
  revert d. induction segments as [|seg rest IH]; intros d Hlast; [reflexivity|].
  assert (Hrest : rest <> [] -> last rest "" <> "").
  { intros Hr. destruct rest; [congruence | exact Hlast]. }
  cbn [filter]. unfold nonempty at 1.
  destruct (String.eqb_spec seg "") as [->|Hne]; cbn [negb].
  - destruct rest as [|k r]; [simpl in Hlast; congruence|].
    simpl. apply IH. apply Hrest. discriminate.
  - destruct rest as [|k r].
    + simpl. apply String.eqb_neq in Hne. now rewrite Hne.
    + rewrite set_path_step by (apply filter_nonempty_last, Hrest; discriminate).
      unfold sub_mapping.
      change (Zip2.set_path (seg :: k :: r) c d) with
        (if (seg =? "")%string then Zip2.set_path (k :: r) c d
         else match dict_get seg d with
              | Some (JObj sub) => dict_set seg (JObj (Zip2.set_path (k :: r) c sub)) d
              | _ => dict_set seg (JObj (Zip2.set_path (k :: r) c [])) d
              end).
      apply String.eqb_neq in Hne. rewrite Hne.
      destruct (dict_get seg d) as [[?|?]|]; rewrite IH by (apply Hrest; discriminate);
        reflexivity.
Qed.

Lemma set_path_of_key_path (f : source_file) (segments : list string) (c : string)
      (d : dict json) :
  stores_leaf f segments ->
  set_path_of f segments c d = App.set_path (key_path f segments) c d.
Proof. destruct f; simpl; [reflexivity | apply zip2_set_path]. Qed.

Lemma key_path_not_nil (f : source_file) (common_prefix y : string) :
  stores_leaf f (path_segments common_prefix y) ->
  key_path f (path_segments common_prefix y) <> [].
Proof.
  destruct f; simpl.
  - intros _. apply split_not_nil.
  - apply filter_nonempty_last.
Qed.

Lemma filter_nonempty_id (l : list string) :
  Forall (fun s => s <> "") l -> filter nonempty l = l.
Proof.
  induction 1 as [|a l Ha Hl IH]; simpl; [reflexivity|].
  apply nonempty_true in Ha. now rewrite Ha, IH.
Qed.

Lemma key_path_segments_nonempty (segments : list string) :
  Forall (fun s => s <> "") (filter nonempty segments).
Proof.
  apply Forall_forall. intros s Hs. apply filter_In in Hs as [_ Hs].
  now apply nonempty_true.
Qed.

Lemma last_nonempty (l : list string) :
  l <> [] -> Forall (fun s => s <> "") l -> last l "" <> "".
Proof.
  induction l as [|a l IH]; intros Hl Hall; [congruence|].
  inversion Hall; subst. destruct l as [|b l]; [assumption|].
  apply IH; [discriminate | assumption].
Qed.

(** What is inserted below a replaced leaf is the same in both files. *)
Lemma set_path_of_suffix (f : source_file) (segments front rest : list string)
      (c : string) (d : dict json) :
  rest <> [] -> key_path f segments = front ++ rest ->
  set_path_of f rest c d = App.set_path rest c d.
Proof.
  destruct f; simpl; [reflexivity|].
  intros Hrest Heq.
  assert (Hall : Forall (fun s => s <> "") rest).
  { pose proof (key_path_segments_nonempty segments) as H.
    rewrite Heq in H. now apply Forall_app in H as [_ H]. }
  rewrite zip2_set_path by now apply last_nonempty.
  now rewrite filter_nonempty_id.
Qed.

Lemma assemble_of_items (f : source_file) (zip_read : string -> read_outcome)
      (decode : bytes -> string) (common_prefix : string) (paths : list string)
      (d : dict json) :
  (forall y, In y paths -> stores_leaf f (path_segments common_prefix y)) ->
  assemble_of f zip_read decode common_prefix paths d =
  insert_all (map (item_of f zip_read decode common_prefix) paths) d.
Proof.
  revert d. induction paths as [|y paths IH]; intros d Hok; [now destruct f|].
  transitivity
    (assemble_of f zip_read decode common_prefix paths
       (set_path_of f (path_segments common_prefix y)
                    (file_content_str zip_read decode y) d)).
  { now destruct f. }
  rewrite IH by (intros; apply Hok; simpl; auto).
  rewrite set_path_of_key_path by (apply Hok; simpl; auto).
  reflexivity.
Qed.

Lemma build_of_assemble (f : source_file) (zip_read : string -> read_outcome)
      (decode : bytes -> string) (paths : list string) (common : string) :
  paths <> [] -> commonpath paths = Some common ->
  build_of f zip_read decode paths =
  Some (assemble_of f zip_read decode (common_prefix_of f common paths) paths []).
Proof.
  intros Hne Hc. destruct paths as [|p0 ps]; [congruence|].
  destruct f; cbn [build_of common_prefix_of assemble_of];
    unfold App.build_nested_json_from_paths, Zip2.build_nested_json_from_paths;
    now rewrite Hc.
Qed.

(** A failing read cannot make the assembly fail: the only failure is the
    [ValueError] of [os.path.commonpath]. *)
Lemma build_of_fails_iff (f : source_file) (zip_read : string -> read_outcome)
      (decode : bytes -> string) (paths : list string) :
  build_of f zip_read decode paths = None <->
  paths <> [] /\ commonpath paths = None.
Proof.
  destruct paths as [|p0 ps].
  - destruct f; simpl; split; try discriminate; intros [H _]; congruence.
  - destruct (commonpath (p0 :: ps)) as [common|] eqn:Hc.
    + rewrite (build_of_assemble f _ _ _ common) by (assumption || discriminate).
      split; [discriminate | intros [_ H]; discriminate].
    + split; [intros _; split; [discriminate | reflexivity]|]. intros _.
      destruct f; cbn [build_of]; unfold App.build_nested_json_from_paths,
        Zip2.build_nested_json_from_paths; now rewrite Hc.
Qed.

(* ================================================================== *)
(** ** Sequences of insertions *)
(* ================================================================== *)

Lemma insert_all_app (a b : list (list string * string)) (d : dict json) :
  insert_all (a ++ b) d = insert_all b (insert_all a d).
Proof. apply fold_left_app. Qed.

Lemma insert_all_cons (it : list string * string)
      (l : list (list string * string)) (d : dict json) :
  insert_all (it :: l) d = insert_all l (App.set_path (fst it) (snd it) d).
Proof. reflexivity. Qed.

Lemma json_at_insert_all_diverge (ks : list string)
      (items : list (list string * string)) (d : dict json) :
  (forall it, In it items -> diverge ks (fst it)) ->
  json_at ks (insert_all items d) = json_at ks d.
Proof.
  revert d. induction items as [|it items IH]; intros d H; [reflexivity|].
  simpl. rewrite IH by (intros; apply H; simpl; auto).
  apply json_at_set_path_diverge, diverge_sym, H. simpl. auto.
Qed.

Lemma retext_insert_all_diverge (ks : list string) (s : string)
      (items : list (list string * string)) (d : dict json) :
  (forall it, In it items -> diverge ks (fst it)) ->
  insert_all items (retext ks s d) = retext ks s (insert_all items d).
Proof.
  revert d. induction items as [|it items IH]; intros d H; [reflexivity|].
  simpl. rewrite set_path_retext_diverge by (apply H; simpl; auto).
  apply IH. intros; apply H; simpl; auto.
Qed.


Lemma json_at_insert_all_collision (ks rest : list string) (s c : string)
      (before between : list (list string * string)) (d : dict json) :
  ks <> [] -> rest <> [] ->
  (forall it, In it between -> diverge ks (fst it)) ->
  json_at ks (insert_all (before ++ (ks, s) :: between ++ [(ks ++ rest, c)]) d) =
  Some (JObj (App.set_path rest c [])).
Proof.
  intros Hks Hrest Hbetween.
  rewrite insert_all_app. change ((ks, s) :: between ++ [(ks ++ rest, c)])
    with (((ks, s) :: between) ++ [(ks ++ rest, c)]).
  rewrite insert_all_app, insert_all_cons, insert_all_cons. cbn [fst snd insert_all fold_left].
  apply (json_at_set_path_collision ks rest s c); [assumption|].
  rewrite json_at_insert_all_diverge by assumption.
  now apply json_at_set_path_same.
Qed.

(** The text of a leaf that is replaced later leaves no trace. *)
Lemma insert_all_forgets (ks rest : list string) (s s' c : string)
      (between after : list (list string * string)) (d : dict json) :
  ks <> [] -> rest <> [] ->
  (forall it, In it between -> diverge ks (fst it)) ->
  insert_all ((ks, s') :: between ++ (ks ++ rest, c) :: after) d =
  insert_all ((ks, s) :: between ++ (ks ++ rest, c) :: after) d.
Proof.
  intros Hks Hrest Hbetween.
  rewrite !insert_all_cons, !insert_all_app, !insert_all_cons. cbn [fst snd].
  f_equal.
  rewrite <- (retext_set_path ks s s' d) by assumption.
  rewrite retext_insert_all_diverge by assumption.
  now apply set_path_retext_collision.
Qed.

(* ================================================================== *)
(** ** The path index *)
(* ================================================================== *)

(** C1, as stated, fails: in the sorted duplicate-free list ["a"; "a/b"]
    the entry "a" is promoted to a Folder when "a/b" arrives, so no File
    node carries the path "a". *)
Lemma promotion_drops_file_path :
  ["a"; "a/b"] <> [] /\ NoDup ["a"; "a/b"] /\
  sorted ["a"; "a/b"] = ["a"; "a/b"] /\
  ~ file_paths_equal_input ["a"; "a/b"].
Proof.
  split; [discriminate|]. split.
  - repeat constructor; simpl; intuition discriminate.
  - split; [reflexivity|]. intros H.
    assert (Hin : In "a" (file_paths (build_file_tree_from_zip ["a"; "a/b"]))).
    { apply H. simpl. auto. }
    vm_compute in Hin. intuition discriminate.
Qed.

(** C1 (amended): for every list of names, a path is carried by a File
    node of the built tree exactly when it is a listed file name (one that
    does not end in "/") and no listed file name lies below it, that is,
    starts with that path followed by "/". *)
Theorem file_nodes_are_the_listed_leaves (namelist : list string) (p : string) :
  In p (file_paths (build_file_tree_from_zip namelist)) <->
  In p (file_names namelist) /\
  forall q, In q (file_names namelist) -> startswith q (p ++ "/") = false.
Proof. apply build_file_paths. Qed.

(** When no listed file lies below another, nothing is promoted and the
    File nodes carry the listed file names, all of them. *)
Corollary file_nodes_of_flat_listing (namelist : list string) :
  (forall p q, In p (file_names namelist) -> In q (file_names namelist) ->
               startswith q (p ++ "/") = false) ->
  forall p, In p (file_paths (build_file_tree_from_zip namelist)) <->
            In p (file_names namelist).
Proof.
  intros Hflat p. rewrite build_file_paths. split; [tauto|].
  intros Hp. split; [assumption|]. intros q Hq. now apply Hflat.
Qed.

(** C8: the lists ["a"; "a/b"] and ["a/b"; "a"] both build the tree whose
    root holds the single Folder "a" with path "a/" and the single File
    child "b" with path "a/b". *)
Theorem promotion_is_order_insensitive :
  build_file_tree_from_zip ["a"; "a/b"] = [("a", Folder "a/" [("b", File "a/b")])] /\
  build_file_tree_from_zip ["a/b"; "a"] = [("a", Folder "a/" [("b", File "a/b")])].
Proof. split; vm_compute; reflexivity. Qed.

(* ================================================================== *)
(** ** The selection resolver *)
(* ================================================================== *)

(** C4: the result is strictly ascending, hence sorted and free of
    duplicates, and it holds exactly what the selected paths contribute:
    the path of a selected File node, and for a selected Folder node the
    entries of the file list that start with the folder's path. *)
Theorem collect_is_sorted_and_exact (sels namelist : list string) (t : tree) :
  StronglySorted str_lt (collect_final_selected_files sels namelist t) /\
  NoDup (collect_final_selected_files sels namelist t) /\
  forall x, In x (collect_final_selected_files sels namelist t) <->
            exists sel, In sel sels /\ contributes t (file_names namelist) sel x.
Proof.
  destruct (collect_spec sels namelist t) as [Hs Hm].
  split; [assumption|]. split; [now apply strictly_sorted_NoDup | assumption].
Qed.

(** The path "" is looked up as the top-level entry named "". *)
Lemma empty_path_lookup (t : tree) :
  get_node_details_from_tree "" t = dict_get "" t.
Proof. unfold get_node_details_from_tree. simpl split. apply walk_last. Qed.

(** C2, as stated, fails: the tree has no node for the root, so the
    selection {""} over the archive ["a.txt"] resolves to nothing. *)
Lemma root_selection_resolves_to_nothing :
  collect_final_selected_files [""] ["a.txt"] (build_file_tree_from_zip ["a.txt"]) = [] /\
  ~ root_selection_returns_all (build_file_tree_from_zip ["a.txt"]) ["a.txt"] [""].
Proof.
  split; [reflexivity|]. intros H.
  specialize (H (or_introl eq_refl) "a.txt" (or_introl eq_refl)).
  vm_compute in H. exact H.
Qed.

(** C2 (amended): when one of the selected paths names a Folder node whose
    path is a prefix of every file of the list, the result is strictly
    ascending and contains every file of the list, whatever else is
    selected; anything else in it is the path of a selected File node. *)
Theorem covering_folder_returns_all (t : tree) (namelist sels : list string)
        (sel fp : string) (ch : tree) :
  In sel sels ->
  get_node_details_from_tree sel t = Some (Folder fp ch) ->
  (forall f, In f (file_names namelist) -> startswith f fp = true) ->
  StronglySorted str_lt (collect_final_selected_files sels namelist t) /\
  (forall f, In f (file_names namelist) ->
             In f (collect_final_selected_files sels namelist t)) /\
  (forall x, In x (collect_final_selected_files sels namelist t) ->
             In x (file_names namelist) \/
             exists s, In s sels /\ get_node_details_from_tree s t = Some (File x)).
Proof.
  intros Hsel Hnode Hall.
  destruct (collect_spec sels namelist t) as [Hs Hm].
  split; [assumption|]. split.
  - intros f Hf. apply Hm. exists sel. split; [assumption|].
    unfold contributes. rewrite Hnode. auto.
  - intros x Hx. apply Hm in Hx as [s [Hs' Hc]]. unfold contributes in Hc.
    destruct (get_node_details_from_tree s t) as [[p|fp' ch']|] eqn:E.
    + subst p. right. eauto.
    + left. tauto.
    + contradiction.
Qed.

Lemma covering_folder_returns_all_witness :
  let namelist := ["repo/a.txt"; "repo/src/b.py"] in
  let t := build_file_tree_from_zip namelist in
  let sels := ["repo/a.txt"; "repo/"] in
  StronglySorted str_lt (collect_final_selected_files sels namelist t) /\
  (forall f, In f (file_names namelist) ->
             In f (collect_final_selected_files sels namelist t)) /\
  (forall x, In x (collect_final_selected_files sels namelist t) ->
             In x (file_names namelist) \/
             exists s, In s sels /\ get_node_details_from_tree s t = Some (File x)).
Proof.
  intros namelist t sels.
  apply (covering_folder_returns_all t namelist sels "repo/" "repo/"
           [("a.txt", File "repo/a.txt");
            ("src", Folder "repo/src/" [("b.py", File "repo/src/b.py")])]).
  - simpl. auto.
  - reflexivity.
  - intros f [<-|[<-|[]]]; reflexivity.
Defined.

(** C9: a selected path whose walk from the root stops without a node,
    because a segment is missing or a File node is met before the final
    segment, resolves to no node and changes nothing in the result; the
    other selected paths are resolved as if it were not there. *)
Theorem unresolvable_selection_adds_nothing (t : tree)
        (namelist sels1 sels2 : list string) (p : string) :
  walk_fails (split (strip p)) t ->
  get_node_details_from_tree p t = None /\
  collect_final_selected_files (sels1 ++ p :: sels2) namelist t =
  collect_final_selected_files (sels1 ++ sels2) namelist t.
Proof.
  intros Hf. apply walk_fails_iff in Hf; [|apply split_not_nil].
  rewrite <- get_node_details_node_at in Hf. split; [assumption|].
  unfold collect_final_selected_files. rewrite !fold_left_app. simpl.
  unfold collect_step at 2. now rewrite Hf.
Qed.

Lemma unresolvable_selection_adds_nothing_witness :
  let t := build_file_tree_from_zip ["src/a.py"; "README"] in
  get_node_details_from_tree "README/old" t = None /\
  collect_final_selected_files (["src/"] ++ "README/old" :: ["README"])
                               ["src/a.py"; "README"] t =
  collect_final_selected_files (["src/"] ++ ["README"]) ["src/a.py"; "README"] t.
Proof.
  intros t.
  apply (unresolvable_selection_adds_nothing t ["src/a.py"; "README"]
           ["src/"] ["README"] "README/old").
  apply (fails_through_file "README" ["old"] t "README");
    [reflexivity | discriminate].
Defined.

(** C10: a path, the same path followed by "/" and the same path preceded
    by "/" are looked up alike, and so a File node is found under its
    path written with a trailing separator. *)
Theorem lookup_ignores_outer_separators (t : tree) (p : string) :
  get_node_details_from_tree (p ++ "/") t = get_node_details_from_tree p t /\
  get_node_details_from_tree ("/" ++ p) t = get_node_details_from_tree p t /\
  forall q, get_node_details_from_tree p t = Some (File q) ->
            get_node_details_from_tree (p ++ "/") t = Some (File q).
Proof.
  unfold get_node_details_from_tree.
  rewrite strip_app_slash, strip_slash_app. auto.
Qed.

Example file_found_with_trailing_separator :
  get_node_details_from_tree "src/a.py/" (build_file_tree_from_zip ["src/a.py"]) =
  Some (File "src/a.py").
Proof. reflexivity. Qed.

(* ================================================================== *)
(** ** The prefix normaliser *)
(* ================================================================== *)

(** C3: for ["a.txt"; "b.txt"] the prefix is "" and for
    ["x/a.txt"; "x/y/b.txt"] it is "x/" in both files.  For the single
    path ["x/y/a.txt"], [zip2json.py] yields "x/y/" and files the entry
    under the bare key "a.txt", while [zip_to_json_app.py] yields
    "x/y/a.txt/", strips nothing and nests the entry under "x" and "y". *)
Theorem common_prefix_examples :
  (forall f, common_prefix f ["a.txt"; "b.txt"] = Some "") /\
  (forall f, common_prefix f ["x/a.txt"; "x/y/b.txt"] = Some "x/") /\
  common_prefix zip2json ["x/y/a.txt"] = Some "x/y/" /\
  common_prefix zip_to_json_app ["x/y/a.txt"] = Some "x/y/a.txt/" /\
  (forall zip_read decode,
     Zip2.build_nested_json_from_paths zip_read decode ["x/y/a.txt"] =
     Some [("a.txt", JStr (file_content_str zip_read decode "x/y/a.txt"))]) /\
  (forall zip_read decode,
     App.build_nested_json_from_paths zip_read decode ["x/y/a.txt"] =
     Some [("x", JObj [("y", JObj
             [("a.txt", JStr (file_content_str zip_read decode "x/y/a.txt"))])])]).
Proof.
  repeat split; try (intros []; reflexivity); reflexivity.
Qed.

(* ================================================================== *)
(** ** The document assembler *)
(* ================================================================== *)

Lemma item_of_key (f : source_file) (zip_read : string -> read_outcome)
      (decode : bytes -> string) (common : string) (paths : list string) (y : string) :
  item_of f zip_read decode (common_prefix_of f common paths) y =
  (file_key f common paths y, file_content_str zip_read decode y).
Proof. reflexivity. Qed.






(** C6: when a later file needs as a directory the place where an earlier
    file was stored as a leaf, the assembly goes on, the leaf is replaced
    by a mapping that starts empty and receives the rest of the later
    path, and the assembled document is the same whatever the archive
    holds for the earlier file. *)
Theorem collision_replaces_leaf (f : source_file)
        (zip_read zip_read' : string -> read_outcome) (decode : bytes -> string)
        (before between after rest : list string) (p q common : string) :
  commonpath (before ++ p :: between ++ q :: after) = Some common ->
  all_store_leaf f common (before ++ p :: between ++ q :: after) ->
  NoDup (before ++ p :: between ++ q :: after) ->
  rest <> [] ->
  file_key f common (before ++ p :: between ++ q :: after) q =
  file_key f common (before ++ p :: between ++ q :: after) p ++ rest ->
  filed_apart (file_key f common (before ++ p :: between ++ q :: after)) p between ->
  (exists doc,
     build_of f zip_read decode (before ++ p :: between ++ q :: after) = Some doc) /\
  json_at (file_key f common (before ++ p :: between ++ q :: after) p)
          (assemble_of f zip_read decode
             (common_prefix_of f common (before ++ p :: between ++ q :: after))
             (before ++ p :: between ++ [q]) []) =
  Some (JObj (set_path_of f rest (file_content_str zip_read decode q) [])) /\
  ((forall y, y <> p -> zip_read' y = zip_read y) ->
   build_of f zip_read' decode (before ++ p :: between ++ q :: after) =
   build_of f zip_read decode (before ++ p :: between ++ q :: after)).
Proof.
  intros Hcommon Hok Hnd Hrest Hq Hapart.
  set (paths := before ++ p :: between ++ q :: after) in *.
  assert (Hpaths : paths <> []) by (subst paths; now destruct before).
  assert (Hkp : file_key f common paths p <> []).
  { apply key_path_not_nil, Hok. subst paths. apply in_elt. }
  assert (Hbetween : forall zr it,
    In it (map (item_of f zr decode (common_prefix_of f common paths)) between) ->
    diverge (file_key f common paths p) (fst it)).
  { intros zr it Hit. apply in_map_iff in Hit as [z [<- Hz]]. now apply Hapart. }
  split; [|split].
  - eexists. apply (build_of_assemble f _ _ paths common); assumption.
  - rewrite assemble_of_items.
    + rewrite (set_path_of_suffix f _ _ rest _ _ Hrest Hq).
      rewrite map_app, map_cons, map_app, map_cons.
      rewrite (item_of_key _ _ _ _ _ p), (item_of_key _ _ _ _ _ q), Hq.
      apply json_at_insert_all_collision; eauto.
    + intros y Hy. apply Hok. subst paths.
      apply in_app_iff in Hy as [Hy|[<-|Hy]]; apply in_app_iff; simpl; auto.
      right. right. apply in_app_iff in Hy as [Hy|[<-|[]]];
        apply in_app_iff; simpl; auto.
  - intros Hsame.
    rewrite !(build_of_assemble f _ decode paths common Hpaths Hcommon).
    f_equal. rewrite !assemble_of_items by exact Hok.
    assert (Hnot : ~ In p (before ++ between ++ q :: after)).
    { unfold paths in Hnd. now apply NoDup_remove_2 in Hnd. }
    assert (Hother : forall y, y <> p ->
      item_of f zip_read' decode (common_prefix_of f common paths) y =
      item_of f zip_read decode (common_prefix_of f common paths) y).
    { intros y Hy. unfold item_of, file_content_str. now rewrite Hsame. }
    assert (Hmap : forall l, ~ In p l ->
      map (item_of f zip_read' decode (common_prefix_of f common paths)) l =
      map (item_of f zip_read decode (common_prefix_of f common paths)) l).
    { intros l Hl. apply map_ext_in. intros y Hy. apply Hother.
      intros ->. contradiction. }
    unfold paths at 2 4. rewrite !map_app, !map_cons, !map_app, !map_cons.
    rewrite (Hmap before) by (intros H; apply Hnot, in_app_iff; auto).
    rewrite (Hmap between)
      by (intros H; apply Hnot, in_app_iff; right; apply in_app_iff; auto).
    rewrite (Hmap after)
      by (intros H; apply Hnot, in_app_iff; right; apply in_app_iff; simpl; auto).
    rewrite (Hother q)
      by (intros ->; apply Hnot, in_app_iff; right; apply in_app_iff; simpl; auto).
    rewrite !insert_all_app.
    rewrite !(item_of_key _ _ _ _ _ p), (item_of_key _ _ _ _ _ q), Hq.
    apply insert_all_forgets; eauto.
Qed.

(* ================================================================== *)
(** ** The pipeline *)
(* ================================================================== *)

(** C7: the serialised output is a function of the tree, the set of
    selected paths, the file list and the archive: in whatever order the
    interpreter visits the elements of the selection set, two runs of the
    pipeline yield the same text. *)
Theorem convert_is_deterministic (f : source_file) (t : tree)
        (sels1 sels2 namelist : list string)
        (zip_read : string -> read_outcome) (decode : bytes -> string) :
  (forall s, In s sels1 <-> In s sels2) ->
  convert_of f t sels1 namelist zip_read decode =
  convert_of f t sels2 namelist zip_read decode.
Proof.
  intros Heq. destruct f; simpl; unfold convert_app, convert_zip2, convert_with;
    now rewrite (collect_ext sels1 sels2 namelist t Heq).
Qed.

Lemma convert_is_deterministic_witness :
  let namelist := ["src/a.py"; "src/b/c.py"; "x.bin"] in
  let t := build_file_tree_from_zip namelist in
  convert_of zip2json t ["src/"; "x.bin"] namelist sample_zip ascii_decode =
  convert_of zip2json t ["x.bin"; "src/"] namelist sample_zip ascii_decode.
Proof.
  intros namelist t.
  apply (convert_is_deterministic zip2json t ["src/"; "x.bin"] ["x.bin"; "src/"]).
  intros s. simpl. tauto.
Defined.


Lemma collision_replaces_leaf_witness :
  let paths := [] ++ "a" :: ["a.txt"] ++ "a/b" :: [] in
  (exists doc, build_of zip_to_json_app echo_zip ascii_decode paths = Some doc) /\
  json_at ["a"] (assemble_of zip_to_json_app echo_zip ascii_decode ""
                             ([] ++ "a" :: ["a.txt"] ++ ["a/b"]) []) =
  Some (JObj [("b", JStr "a/b")]) /\
  build_of zip_to_json_app (fun _ => Raises "gone") ascii_decode ["a"] <>
  build_of zip_to_json_app echo_zip ascii_decode ["a"] /\
  build_of zip_to_json_app
           (fun y => if (y =? "a")%string then Raises "gone" else echo_zip y)
           ascii_decode paths =
  build_of zip_to_json_app echo_zip ascii_decode paths.
Proof.
  intros paths.
  destruct (collision_replaces_leaf zip_to_json_app echo_zip
              (fun y => if (y =? "a")%string then Raises "gone" else echo_zip y)
              ascii_decode [] ["a.txt"] [] ["b"] "a" "a/b" "")
    as [Hdoc [Hat Hsame]].
  - reflexivity.
  - intros y _. exact I.
  - repeat constructor; simpl; intuition discriminate.
  - discriminate.
  - reflexivity.
  - intros y [<-|[]]. apply diverge_here. discriminate.
  - split; [exact Hdoc|]. split; [exact Hat|]. split; [discriminate|].
    apply Hsame. intros y Hy. apply String.eqb_neq in Hy. now rewrite Hy.
Defined.

(* ================================================================== *)
(** ** Further properties of the path index *)
(* ================================================================== *)

Lemma In_file_names (namelist : list string) (p : string) :
  In p (file_names namelist) <-> In p namelist /\ endswith p "/" = false.
Proof.
  unfold file_names. rewrite filter_In.
  destruct (endswith p "/"); simpl; intuition congruence.
Qed.

(** A fact that holds of the empty tree and survives every insertion holds
    of the tree that is built. *)
Lemma build_ind (P : tree -> list string -> Prop) :
  P [] [] ->
  (forall t l p, P t l -> P (add_path p [] (split p) t) (p :: l)) ->
  (forall t l l', (forall x, In x l <-> In x l') -> P t l -> P t l') ->
  forall namelist, P (build_file_tree_from_zip namelist) (file_names namelist).
Proof.
  intros Hnil Hadd Hext namelist. unfold build_file_tree_from_zip.
  apply (Hext _ (rev (sorted (file_names namelist)) ++ [])).
  { intros x. rewrite app_nil_r, <- in_rev. apply In_sorted. }
  assert (H : forall l t done, P t done ->
    P (fold_left (fun t p => add_path p [] (split p) t) l t) (rev l ++ done)).
  { induction l as [|p l IH]; intros t done Ht; simpl; [assumption|].
    rewrite <- app_assoc. simpl. apply IH, Hadd, Ht. }
  apply H, Hnil.
Qed.

Lemma folder_paths_ok_descend (done : list string) (k : string) (t : tree) :
  folder_paths_ok done t -> folder_paths_ok (done ++ [k]) (descend_children k t).
Proof.
  intros Hok ks fp ch H.
  assert (Hks : ks <> []) by (intros ->; discriminate).
  rewrite <- node_at_descend in H by assumption.
  rewrite <- app_assoc. simpl. eauto.
Qed.

Lemma folder_paths_ok_add (path_str : string) (ks done : list string) (t : tree) :
  folder_paths_ok done t -> folder_paths_ok done (add_path path_str done ks t).
Proof.
  revert done t. induction ks as [|k r IH]; intros done t Hok; [assumption|].
  intros ks' fp ch H.
  destruct ks' as [|k' r']; [discriminate|].
  destruct (string_dec k k') as [<-|Hne].
  2:{ destruct (add_path_is_set path_str done k r t) as [n Hn]. rewrite Hn in H.
      apply (Hok (k' :: r') fp ch). revert H. unfold node_at.
      destruct r' as [|k'' r''].
      - rewrite !walk_last. now rewrite dict_get_set_ne.
      - rewrite !walk_step by discriminate. now rewrite dict_get_set_ne. }
  destruct r as [|k1 r1].
  - rewrite add_path_last in H. revert H. unfold node_at. destruct r' as [|k'' r''].
    + rewrite walk_last, dict_get_set_eq. discriminate.
    + rewrite walk_step by discriminate. rewrite dict_get_set_eq. discriminate.
  - rewrite add_path_step in H by discriminate. revert H. unfold node_at.
    destruct r' as [|k'' r''].
    + rewrite walk_last, dict_get_set_eq. intros H. inversion H; subst.
      unfold descend_path.
      destruct (dict_get k t) as [[?|q c]|] eqn:E; try reflexivity.
      apply (Hok [k] q c). unfold node_at. now rewrite walk_last.
    + rewrite walk_step by discriminate. rewrite dict_get_set_eq. intros H.
      apply (IH (done ++ [k]) (descend_children k t)) in H.
      * rewrite <- app_assoc in H. exact H.
      * now apply folder_paths_ok_descend.
Qed.

Lemma folder_paths_ok_build (namelist : list string) :
  folder_paths_ok [] (build_file_tree_from_zip namelist).
Proof.
  apply (build_ind (fun t _ => folder_paths_ok [] t)).
  - intros ks fp ch H. rewrite node_at_nil_tree in H. discriminate.
  - intros t l p. apply folder_paths_ok_add.
  - auto.
Qed.

Lemma on_listed_path_build (namelist : list string) (ks : list string) (n : node) :
  node_at ks (build_file_tree_from_zip namelist) = Some n ->
  on_listed_path (file_names namelist) ks.
Proof.
  revert ks n.
  apply (build_ind (fun t l => forall ks n, node_at ks t = Some n -> on_listed_path l ks)).
  - intros ks n H. rewrite node_at_nil_tree in H. discriminate.
  - intros t l p IH ks n H.
    assert (Hks : ks <> []) by (intros ->; discriminate).
    destruct (key_sequences_cases (split p) ks (split_not_nil p) Hks)
      as [E|[E|[E|E]]].
    + exists p. simpl. auto.
    + rewrite node_at_add_path_below in H by (auto using split_not_nil). discriminate.
    + exists p. simpl. auto.
    + rewrite node_at_add_path_diverge in H by assumption.
      destruct (IH ks n H) as [q [Hq Hc]]. exists q. simpl. auto.
  - intros t l l' Heq IH ks n H. destruct (IH ks n H) as [q [Hq Hc]].
    exists q. split; [now apply Heq | assumption].
Qed.

(** A front part of the segments of a path is the segments of a directory
    of that path. *)
Lemma split_app_inv (s : string) (a b : list string) :
  split s = a ++ b -> a <> [] -> b <> [] ->
  exists d r, s = (d ++ "/" ++ r)%string /\ split d = a /\ split r = b.
Proof.
  revert a b. induction s as [|c s IH]; intros a b Heq Ha Hb.
  - exfalso. destruct a as [|x a]; [congruence|]. destruct b as [|y b]; [congruence|].
    simpl in Heq. destruct a; inversion Heq.
  - simpl in Heq. destruct (Ascii.eqb_spec c slash) as [->|Hc].
    + destruct a as [|x a]; [congruence|]. simpl in Heq. inversion Heq; subst x.
      destruct a as [|y a].
      * exists "", s. simpl in *. auto.
      * destruct (IH (y :: a) b) as [d [r [-> [Hd Hr]]]]; try assumption; try discriminate.
        exists (String slash d), r. simpl. rewrite Hd. auto.
    + pose proof (split_not_nil s) as Hn.
      destruct (split s) as [|h t] eqn:Es; [congruence|].
      destruct a as [|x a]; [congruence|]. simpl in Heq. inversion Heq; subst x.
      destruct (IH (h :: a) b) as [d [r [-> [Hd Hr]]]]; try assumption; try discriminate.
      { simpl. congruence. }
      exists (String c d), r. simpl. rewrite Hd.
      apply Ascii.eqb_neq in Hc. rewrite Hc. auto.
Qed.

Lemma proper_prefix_is_split (ks : list string) (q : string) :
  ks <> [] -> proper_prefix ks (split q) ->
  exists d r, q = (d ++ "/" ++ r)%string /\ split d = ks.
Proof.
  intros Hks [r [Hr Heq]].
  destruct (split_app_inv q ks r Heq Hks Hr) as [d [r' [-> [Hd _]]]]. eauto.
Qed.

Lemma folder_nodes_dirs (namelist : list string) (d : string) :
  ((exists fp ch, node_at (split d) (build_file_tree_from_zip namelist) =
                  Some (Folder fp ch)) <->
   (exists q, In q (file_names namelist) /\ startswith q (d ++ "/") = true)) /\
  (forall fp ch, node_at (split d) (build_file_tree_from_zip namelist) =
                 Some (Folder fp ch) -> fp = (d ++ "/")%string).
Proof.
  destruct (build_inv namelist) as [Hfile Hfolder Hleaf]. split; [split|].
  - intros [fp [ch H]].
    destruct (on_listed_path_build _ _ _ H) as [q [Hq [E|E]]].
    + apply split_inj in E. subst q.
      destruct (Hleaf d Hq) as [Hf|[q' [Hq' Hpre]]]; [congruence|].
      exists q'. split; [assumption|].
      apply proper_prefix_split in Hpre as [r ->].
      rewrite <- append_assoc. apply startswith_app.
    + exists q. split; [assumption|].
      apply proper_prefix_split in E as [r ->].
      rewrite <- append_assoc. apply startswith_app.
  - intros [q [Hq Hs]]. apply (Hfolder q); [assumption | apply split_not_nil |].
    apply startswith_iff in Hs as [r ->]. apply proper_prefix_split.
    exists r. now rewrite append_assoc.
  - intros fp ch H.
    rewrite (folder_paths_ok_build namelist _ _ _ H). simpl. now rewrite join_split.
Qed.

(** X1: the Folder nodes of the built tree are the directories of the
    listed files: the position [split d] holds a Folder node exactly when
    some listed file name starts with [d/], and the path of that node is
    [d/]. *)
Theorem folder_nodes_are_the_listed_directories (namelist : list string) (d : string) :
  ((exists fp ch, node_at (split d) (build_file_tree_from_zip namelist) =
                  Some (Folder fp ch)) <->
   (exists q, In q (file_names namelist) /\ startswith q (d ++ "/") = true)) /\
  (forall fp ch, node_at (split d) (build_file_tree_from_zip namelist) =
                 Some (Folder fp ch) -> fp = (d ++ "/")%string).
Proof. apply folder_nodes_dirs. Qed.

Lemma endswith_iff (s suf : string) :
  endswith s suf = true <-> exists r, s = (r ++ suf)%string.
Proof.
  induction s as [|c s IH]; cbn [endswith].
  - rewrite orb_false_r. split.
    + intros H. apply String.eqb_eq in H. subst. now exists "".
    + intros [r Hr]. destruct r; [|discriminate]. simpl in Hr. subst.
      apply String.eqb_refl.
  - rewrite orb_true_iff, IH. split.
    + intros [H|[r ->]].
      * apply String.eqb_eq in H. exists "". now rewrite H.
      * now exists (String c r).
    + intros [r Hr]. destruct r as [|c' r].
      * left. simpl in Hr. rewrite Hr. apply String.eqb_refl.
      * right. inversion Hr. now exists r.
Qed.

Lemma lstrip_id (p : string) : startswith p "/" = false -> lstrip p = p.
Proof.
  destruct p as [|c r]; [reflexivity|]. unfold startswith. simpl.
  destruct (ascii_dec "/" c) as [<-|Hne].
  - destruct r; discriminate.
  - intros _. destruct (Ascii.eqb_spec c slash) as [->|_]; [|reflexivity].
    now contradiction Hne.
Qed.

Lemma rstrip_id (p : string) : endswith p "/" = false -> rstrip p = p.
Proof.
  induction p as [|c r IH]; [reflexivity|]. simpl.
  intros H. apply orb_false_iff in H as [H1 H2]. rewrite (IH H2).
  destruct r as [|c' r']; [|reflexivity].
  destruct (Ascii.eqb_spec c slash) as [->|_]; [discriminate | reflexivity].
Qed.

Lemma strip_id (p : string) :
  startswith p "/" = false -> endswith p "/" = false -> strip p = p.
Proof. intros H1 H2. unfold strip. now rewrite lstrip_id, rstrip_id. Qed.

Lemma file_names_no_slash_end (namelist : list string) (p : string) :
  In p (file_names namelist) -> endswith p "/" = false.
Proof. intros H. now apply In_file_names in H. Qed.

Lemma node_is_listed (namelist : list string) (ks : list string) (n : node) :
  node_at ks (build_file_tree_from_zip namelist) = Some n ->
  match n with
  | File p => ks = split p /\ In p namelist /\ endswith p "/" = false
  | Folder fp _ =>
      exists d, ks = split d /\ fp = (d ++ "/")%string /\
                exists q, In q (file_names namelist) /\ startswith q fp = true
  end.
Proof.
  intros H. destruct (build_inv namelist) as [Hfile Hfolder Hleaf].
  destruct n as [p|fp ch].
  - destruct (Hfile ks p H) as [Hin ->]. apply In_file_names in Hin. tauto.
  - assert (Hks : ks <> []) by (intros ->; discriminate).
    assert (Hd : exists d, ks = split d).
    { destruct (on_listed_path_build _ _ _ H) as [q [Hq [E|E]]]; [eauto|].
      destruct (proper_prefix_is_split ks q Hks E) as [d [r [_ Hd]]]. eauto. }
    destruct Hd as [d ->]. exists d. split; [reflexivity|].
    destruct (folder_nodes_dirs namelist d) as [[Hex _] Hpath].
    rewrite (Hpath fp ch H). split; [reflexivity|]. apply Hex. eauto.
Qed.

(** X2: every node of the built tree belongs to a listed file.  A File
    node sits at the segments of its path, which is a listed name that
    does not end in "/"; a Folder node sits at the segments of a directory
    [d], carries the path [d/], and some listed file name starts with it. *)
Theorem every_node_is_listed (namelist : list string) (ks : list string) (n : node) :
  node_at ks (build_file_tree_from_zip namelist) = Some n ->
  match n with
  | File p => ks = split p /\ In p namelist /\ endswith p "/" = false
  | Folder fp _ =>
      exists d, ks = split d /\ fp = (d ++ "/")%string /\
                exists q, In q (file_names namelist) /\ startswith q fp = true
  end.
Proof. apply node_is_listed. Qed.

Lemma every_node_is_listed_witness :
  exists d, ["src"] = split d /\ "src/" = (d ++ "/")%string /\
            exists q, In q (file_names ["src/a.py"; "README"]) /\
                      startswith q "src/" = true.
Proof.
  exact (every_node_is_listed ["src/a.py"; "README"] ["src"]
           (Folder "src/" [("a.py", File "src/a.py")]) eq_refl).
Defined.

(** X3: in the built tree a node is found under its own path, provided
    the path does not start with "/" and does not end with "//" (the
    lookup strips the separators at both ends). *)
Theorem node_found_under_its_path (namelist : list string) (ks : list string)
        (n : node) :
  node_at ks (build_file_tree_from_zip namelist) = Some n ->
  startswith (node_path n) "/" = false ->
  endswith (node_path n) "//" = false ->
  get_node_details_from_tree (node_path n) (build_file_tree_from_zip namelist) = Some n.
Proof.
  intros H Hstart Hend. pose proof (node_is_listed namelist ks n H) as Hn.
  rewrite get_node_details_node_at. destruct n as [p|fp ch]; simpl in *.
  - destruct Hn as [-> [_ Hp]]. now rewrite strip_id.
  - destruct Hn as [d [-> [-> _]]]. rewrite strip_app_slash, strip_id; [assumption | |].
    + destruct (startswith d "/") eqn:E; [|reflexivity].
      apply startswith_iff in E as [r ->].
      rewrite <- Hstart. symmetry. apply startswith_iff. exists (r ++ "/")%string.
      now rewrite !append_assoc.
    + destruct (endswith d "/") eqn:E; [|reflexivity].
      apply endswith_iff in E as [r ->].
      rewrite <- Hend. symmetry. apply endswith_iff. exists r.
      now rewrite append_assoc.
Qed.

Lemma node_found_under_its_path_witness :
  get_node_details_from_tree "src/" (build_file_tree_from_zip ["src/a.py"; "README"]) =
  Some (Folder "src/" [("a.py", File "src/a.py")]).
Proof.
  exact (node_found_under_its_path ["src/a.py"; "README"] ["src"]
           (Folder "src/" [("a.py", File "src/a.py")]) eq_refl eq_refl eq_refl).
Defined.

(** A path with a leading separator is not found under its own path. *)
Example leading_separator_is_not_found :
  node_at [""; "x"] (build_file_tree_from_zip ["/x"]) = Some (File "/x") /\
  get_node_details_from_tree "/x" (build_file_tree_from_zip ["/x"]) = None.
Proof. split; reflexivity. Qed.

(** X4: the tree is empty exactly when the archive lists no file, that is,
    when every name ends in "/". *)
Theorem tree_empty_iff_no_file (namelist : list string) :
  build_file_tree_from_zip namelist = [] <-> file_names namelist = [].
Proof.
  split.
  - intros Ht. destruct (file_names namelist) as [|p l] eqn:E; [reflexivity|].
    exfalso. destruct (build_inv namelist) as [_ Hfolder Hleaf].
    rewrite E, Ht in *.
    destruct (Hleaf p (or_introl eq_refl)) as [H|[q [Hq Hpre]]].
    + rewrite node_at_nil_tree in H. discriminate.
    + destruct (Hfolder q (split p) Hq (split_not_nil p) Hpre) as [fp [ch H]].
      rewrite node_at_nil_tree in H. discriminate.
  - intros E. unfold build_file_tree_from_zip. now rewrite E.
Qed.

(* ================================================================== *)
(** ** Further properties of the selection resolver *)
(* ================================================================== *)

(** X5: resolved against the tree built from the same archive, a selection
    only returns files of that archive. *)
Theorem resolved_files_are_listed (sels namelist : list string) (x : string) :
  In x (collect_final_selected_files sels namelist
          (build_file_tree_from_zip namelist)) ->
  In x (file_names namelist).
Proof.
  intros H. apply collect_spec in H as [sel [_ Hc]]. unfold contributes in Hc.
  destruct (get_node_details_from_tree sel (build_file_tree_from_zip namelist))
    as [[p|fp ch]|] eqn:E; [| tauto | contradiction].
  subst p. rewrite get_node_details_node_at in E.
  destruct (build_inv namelist) as [Hfile _ _]. now destruct (Hfile _ _ E).
Qed.

Lemma resolved_files_are_listed_witness :
  In "src/a.py" (file_names ["src/a.py"; "src/"; "README"]).
Proof.
  apply (resolved_files_are_listed ["src/"] ["src/a.py"; "src/"; "README"] "src/a.py").
  vm_compute. auto.
Defined.

(** X6: the result for two selections put together holds what the result
    for each holds. *)
Theorem collect_of_union (sels1 sels2 namelist : list string) (t : tree) (x : string) :
  In x (collect_final_selected_files (sels1 ++ sels2) namelist t) <->
  In x (collect_final_selected_files sels1 namelist t) \/
  In x (collect_final_selected_files sels2 namelist t).
Proof.
  destruct (collect_spec (sels1 ++ sels2) namelist t) as [_ H].
  destruct (collect_spec sels1 namelist t) as [_ H1].
  destruct (collect_spec sels2 namelist t) as [_ H2].
  rewrite H, H1, H2. split.
  - intros [s [Hs Hc]]. apply in_app_iff in Hs as [Hs|Hs]; eauto.
  - intros [[s [Hs Hc]]|[s [Hs Hc]]]; exists s; (split; [apply in_app_iff; auto | assumption]).
Qed.

(** X7: a file selected on its own adds nothing when a selected folder
    already covers it. *)
Theorem folder_selection_subsumes_file (t : tree) (namelist sels : list string)
        (folder_sel file_sel fp p : string) (ch : tree) :
  In folder_sel sels ->
  get_node_details_from_tree folder_sel t = Some (Folder fp ch) ->
  get_node_details_from_tree file_sel t = Some (File p) ->
  In p (file_names namelist) -> startswith p fp = true ->
  collect_final_selected_files (file_sel :: sels) namelist t =
  collect_final_selected_files sels namelist t.
Proof.
  intros Hin Hfolder Hfile Hp Hs.
  destruct (collect_spec (file_sel :: sels) namelist t) as [S1 M1].
  destruct (collect_spec sels namelist t) as [S2 M2].
  apply strictly_sorted_unique; try assumption.
  intros x. rewrite M1, M2. split.
  - intros [s [[<-|Hs'] Hc]]; [|eauto].
    unfold contributes in Hc. rewrite Hfile in Hc. subst x.
    exists folder_sel. split; [assumption|]. unfold contributes. rewrite Hfolder. auto.
  - intros [s [Hs' Hc]]. exists s. simpl. auto.
Qed.

Lemma folder_selection_subsumes_file_witness :
  let namelist := ["src/a.py"; "src/b.py"; "README"] in
  let t := build_file_tree_from_zip namelist in
  collect_final_selected_files ("src/a.py" :: ["src/"; "README"]) namelist t =
  collect_final_selected_files ["src/"; "README"] namelist t.
Proof.
  intros namelist t.
  apply (folder_selection_subsumes_file t namelist ["src/"; "README"]
           "src/" "src/a.py" "src/" "src/a.py"
           [("a.py", File "src/a.py"); ("b.py", File "src/b.py")]).
  - simpl. auto.
  - reflexivity.
  - reflexivity.
  - simpl. auto.
  - reflexivity.
Defined.

(** X8: the pipeline reports that nothing is selected exactly when no
    selected path contributes a file; in that case the archive is not
    read and no document is produced. *)
Theorem nothing_selected_iff (f : source_file) (t : tree) (sels namelist : list string)
        (zip_read : string -> read_outcome) (decode : bytes -> string) :
  convert_of f t sels namelist zip_read decode = NothingSelected <->
  forall sel x, In sel sels -> ~ contributes t (file_names namelist) sel x.
Proof.
  destruct (collect_spec sels namelist t) as [_ Hm].
  assert (Hconv : convert_of f t sels namelist zip_read decode = NothingSelected <->
                  collect_final_selected_files sels namelist t = []).
  { destruct f; simpl; unfold convert_app, convert_zip2, convert_with;
      destruct (collect_final_selected_files sels namelist t) as [|y l] eqn:E;
      cbn [build_of]; try tauto;
      match goal with |- context [?b zip_read decode (y :: l)] =>
        destruct (b zip_read decode (y :: l)) end;
      split; discriminate. }
  rewrite Hconv. split.
  - intros E sel x Hsel Hc. rewrite E in Hm. apply (Hm x). eauto.
  - intros Hno. destruct (collect_final_selected_files sels namelist t) as [|y l];
      [reflexivity|].
    exfalso. destruct (proj1 (Hm y) (or_introl eq_refl)) as [sel [Hsel Hc]].
    eapply Hno; eauto.
Qed.

(* ================================================================== *)
(** ** Further properties of the assembler *)
(* ================================================================== *)

Lemma endswith_app (s suf : string) : endswith (s ++ suf) suf = true.
Proof. apply endswith_iff. now exists s. Qed.

Lemma add_slash_shape (cp : string) :
  let cp' := if nonempty cp && negb (endswith cp "/") then (cp ++ "/")%string else cp in
  cp' = "" \/ endswith cp' "/" = true.
Proof.
  simpl. unfold nonempty. destruct (String.eqb_spec cp "") as [->|Hne]; simpl; [auto|].
  destruct (endswith cp "/") eqn:E; simpl; [auto|].
  right. apply endswith_app.
Qed.

Lemma drop_dot_slash_shape (cp : string) :
  cp = "" \/ endswith cp "/" = true ->
  ((if (cp =? "./")%string then "" else cp) = "" \/
   endswith (if (cp =? "./")%string then "" else cp) "/" = true) /\
  (if (cp =? "./")%string then "" else cp) <> "./".
Proof.
  intros H. destruct (String.eqb_spec cp "./") as [->|Hne].
  - split; [auto | discriminate].
  - split; assumption.
Qed.

Lemma drop_dot_shape (cp : string) :
  cp = "" \/ endswith cp "/" = true ->
  ((if (cp =? "./")%string || (cp =? ".")%string then "" else cp) = "" \/
   endswith (if (cp =? "./")%string || (cp =? ".")%string then "" else cp) "/" = true) /\
  (if (cp =? "./")%string || (cp =? ".")%string then "" else cp) <> "./".
Proof.
  intros H. destruct (String.eqb_spec cp "./") as [->|Hne]; cbn [orb].
  - split; [auto | discriminate].
  - destruct (String.eqb_spec cp ".") as [->|Hne'].
    + split; [auto | discriminate].
    + split; assumption.
Qed.

(** X9: in both files the prefix that is stripped is empty or ends in "/",
    and it is never "./". *)
Theorem common_prefix_is_a_directory (f : source_file) (common : string)
        (paths : list string) :
  (common_prefix_of f common paths = "" \/
   endswith (common_prefix_of f common paths) "/" = true) /\
  common_prefix_of f common paths <> "./".
Proof.
  destruct f; cbn [common_prefix_of];
    unfold App.common_prefix_of, Zip2.common_prefix_of; cbv zeta.
  - apply drop_dot_slash_shape. apply add_slash_shape.
  - apply drop_dot_shape. destruct (nonempty common) eqn:E.
    + apply add_slash_shape.
    + left. unfold nonempty in E. destruct (String.eqb_spec common ""); [assumption|].
      discriminate.
Qed.

(** The two loops agree on segments none of which is empty. *)
Lemma zip2_set_path_nonempty (segments : list string) (c : string) (d : dict json) :
  segments <> [] -> Forall (fun s => s <> "") segments ->
  Zip2.set_path segments c d = App.set_path segments c d.
Proof.
  intros Hne Hall. rewrite zip2_set_path by now apply last_nonempty.
  now rewrite filter_nonempty_id.
Qed.

(** X10: the two files assemble the same document from paths whose
    segments, once the prefix is stripped, are all non-empty. *)
Theorem assemblers_agree_without_empty_segments
        (zip_read : string -> read_outcome) (decode : bytes -> string)
        (common_prefix : string) (paths : list string) (d : dict json) :
  (forall y, In y paths -> Forall (fun s => s <> "") (path_segments common_prefix y)) ->
  Zip2.assemble zip_read decode common_prefix paths d =
  App.assemble zip_read decode common_prefix paths d.
Proof.
  revert d. induction paths as [|y paths IH]; intros d Hall; [reflexivity|].
  unfold Zip2.assemble, App.assemble in *. simpl.
  fold (path_segments common_prefix y).
  rewrite zip2_set_path_nonempty
    by (try apply split_not_nil; apply Hall; simpl; auto).
  apply IH. intros z Hz. apply Hall. simpl. auto.
Qed.

Lemma assemblers_agree_without_empty_segments_witness :
  Zip2.assemble sample_zip ascii_decode "src/" ["src/a.py"; "src/b/c.py"] [] =
  App.assemble sample_zip ascii_decode "src/" ["src/a.py"; "src/b/c.py"] [].
Proof.
  apply (assemblers_agree_without_empty_segments sample_zip ascii_decode "src/"
           ["src/a.py"; "src/b/c.py"] []).
  intros y [<-|[<-|[]]]; vm_compute; repeat constructor; discriminate.
Defined.

(** With an empty segment they differ: [zip_to_json_app.py] files the
    entry under the key "". *)
Example assemblers_differ_on_empty_segment :
  App.assemble echo_zip ascii_decode "" ["a//b"] [] =
    [("a", JObj [("", JObj [("b", JStr "a//b")])])] /\
  Zip2.assemble echo_zip ascii_decode "" ["a//b"] [] =
    [("a", JObj [("b", JStr "a//b")])].
Proof. split; reflexivity. Qed.

Lemma no_empty_key_json_obj (d : dict json) :
  no_empty_key_json (JObj d) <-> no_empty_key d.
Proof. simpl. induction d as [|[k v] d IH]; simpl; tauto. Qed.

Lemma no_empty_key_set (k : string) (v : json) (d : dict json) :
  k <> "" -> no_empty_key_json v -> no_empty_key d -> no_empty_key (dict_set k v d).
Proof.
  intros Hk Hv. induction d as [|[k' v'] d IH]; simpl; [tauto|].
  intros [Hk' [Hv' Hd]]. destruct (String.eqb k' k); simpl; auto.
Qed.

Lemma no_empty_key_get (k : string) (d sub : dict json) :
  no_empty_key d -> dict_get k d = Some (JObj sub) -> no_empty_key sub.
Proof.
  induction d as [|[k' v'] d IH]; simpl; [discriminate|].
  intros [Hk' [Hv' Hd]]. destruct (String.eqb k' k); [|auto].
  intros E. inversion E; subst. now apply no_empty_key_json_obj.
Qed.

Lemma zip2_set_path_no_empty_key (segments : list string) (c : string)
      (d : dict json) :
  no_empty_key d -> no_empty_key (Zip2.set_path segments c d).
Proof.
  revert d. induction segments as [|seg rest IH]; intros d Hd; [assumption|].
  cbn [Zip2.set_path]. destruct (String.eqb_spec seg "") as [->|Hne]; [now apply IH|].
  destruct rest as [|k r].
  - apply no_empty_key_set; simpl; auto.
  - destruct (dict_get seg d) as [[s|sub]|] eqn:E;
      apply no_empty_key_set; auto; apply no_empty_key_json_obj, IH; simpl; auto.
    eapply no_empty_key_get; eauto.
Qed.

(** X11: [zip2json.py] never files anything under an empty key: no key of
    the documents it builds, at any depth, is the empty string. *)
Theorem zip2json_has_no_empty_key (zip_read : string -> read_outcome)
        (decode : bytes -> string) (paths : list string) (doc : dict json) :
  Zip2.build_nested_json_from_paths zip_read decode paths = Some doc ->
  no_empty_key doc.
Proof.
  unfold Zip2.build_nested_json_from_paths.
  assert (H : forall prefix l d, no_empty_key d ->
                no_empty_key (Zip2.assemble zip_read decode prefix l d)).
  { intros prefix l. induction l as [|y l IH]; intros d Hd; [assumption|].
    unfold Zip2.assemble in *. simpl. apply IH.
    now apply zip2_set_path_no_empty_key. }
  destruct paths as [|p0 ps].
  - intros E. injection E as <-. exact I.
  - destruct (commonpath (p0 :: ps)); [|discriminate].
    intros E. injection E as <-. apply (H _ (p0 :: ps) []). exact I.
Qed.

Lemma zip2json_has_no_empty_key_witness :
  no_empty_key [("a", JObj [("b", JStr "a//b")]); ("c", JStr "c")].
Proof.
  exact (zip2json_has_no_empty_key echo_zip ascii_decode ["a//b"; "c"]
           [("a", JObj [("b", JStr "a//b")]); ("c", JStr "c")] eq_refl).
Defined.

Lemma dict_set_twice {V : Type} (k : string) (v v' : V) (d : dict V) :
  dict_set k v (dict_set k v' d) = dict_set k v d.
Proof.
  induction d as [|[k0 v0] d IH]; simpl.
  - now rewrite String.eqb_refl.
  - destruct (String.eqb_spec k0 k) as [->|Hne]; simpl.
    + now rewrite String.eqb_refl.
    + apply String.eqb_neq in Hne. rewrite Hne. now rewrite IH.
Qed.

Lemma sub_mapping_set (k : string) (m d : dict json) :
  sub_mapping k (dict_set k (JObj m) d) = m.
Proof. unfold sub_mapping. now rewrite dict_get_set_eq. Qed.

Lemma app_set_path_twice (segments : list string) (c1 c2 : string) (d : dict json) :
  App.set_path segments c2 (App.set_path segments c1 d) = App.set_path segments c2 d.
Proof.
  revert d. induction segments as [|k r IH]; intros d; [reflexivity|].
  destruct r as [|k' r].
  - rewrite !set_path_last. apply dict_set_twice.
  - rewrite (set_path_step k (k' :: r) c1 d) by discriminate.
    rewrite (set_path_step k (k' :: r) c2 d) by discriminate.
    rewrite set_path_step by discriminate.
    rewrite sub_mapping_set, dict_set_twice. now rewrite IH.
Qed.

Lemma zip2_set_path_step (seg : string) (rest : list string) (c : string)
      (d : dict json) :
  seg <> "" -> rest <> [] ->
  Zip2.set_path (seg :: rest) c d =
  dict_set seg (JObj (Zip2.set_path rest c (sub_mapping seg d))) d.
Proof.
  intros Hseg Hrest. destruct rest as [|k r]; [congruence|].
  cbn [Zip2.set_path]. apply String.eqb_neq in Hseg. rewrite Hseg.
  unfold sub_mapping. destruct (dict_get seg d) as [[?|?]|]; reflexivity.
Qed.

Lemma zip2_set_path_twice (segments : list string) (c1 c2 : string) (d : dict json) :
  Zip2.set_path segments c2 (Zip2.set_path segments c1 d) = Zip2.set_path segments c2 d.
Proof.
  revert d. induction segments as [|k r IH]; intros d; [reflexivity|].
  destruct (String.eqb_spec k "") as [->|Hk].
  - cbn [Zip2.set_path]. simpl String.eqb. apply IH.
  - destruct r as [|k' r].
    + cbn [Zip2.set_path]. apply String.eqb_neq in Hk. rewrite Hk.
      apply dict_set_twice.
    + rewrite (zip2_set_path_step k (k' :: r) c1 d) by (assumption || discriminate).
      rewrite (zip2_set_path_step k (k' :: r) c2 d) by (assumption || discriminate).
      rewrite zip2_set_path_step by (assumption || discriminate).
      rewrite sub_mapping_set, dict_set_twice. now rewrite IH.
Qed.

(** X12: filing a second text under the segments of a first one replaces
    it and leaves the rest of the document as if only the second had been
    filed; so a path listed twice in a row counts once, with the content
    read last. *)
Theorem later_content_wins (f : source_file) (segments : list string)
        (c1 c2 : string) (d : dict json) :
  set_path_of f segments c2 (set_path_of f segments c1 d) =
  set_path_of f segments c2 d.
Proof.
  destruct f; [apply app_set_path_twice | apply zip2_set_path_twice].
Qed.

Lemma leaves_json_obj (m : dict json) : json_leaves (JObj m) = leaves m.
Proof. simpl. induction m as [|[k v] m IH]; simpl; congruence. Qed.

Lemma leaves_dict_set (k : string) (v : json) (d : dict json) (s : string) :
  In s (leaves (dict_set k v d)) -> In s (json_leaves v) \/ In s (leaves d).
Proof.
  induction d as [|[k' v'] d IH]; simpl.
  - rewrite app_nil_r. auto.
  - destruct (String.eqb k' k); simpl; rewrite !in_app_iff; intuition.
Qed.

Lemma leaves_sub_mapping (k : string) (d : dict json) (s : string) :
  In s (leaves (sub_mapping k d)) -> In s (leaves d).
Proof.
  unfold sub_mapping. induction d as [|[k' v'] d IH]; simpl; [tauto|].
  destruct (String.eqb k' k).
  - destruct v' as [t|m]; [intros []|]. rewrite leaves_json_obj, in_app_iff. auto.
  - rewrite in_app_iff. auto.
Qed.

Lemma leaves_app_set_path (segments : list string) (c : string) (d : dict json)
      (s : string) :
  In s (leaves (App.set_path segments c d)) -> s = c \/ In s (leaves d).
Proof.
  revert d. induction segments as [|k r IH]; intros d; [auto|].
  destruct r as [|k' r].
  - rewrite set_path_last. intros [[<-|[]]|H]%leaves_dict_set; auto.
  - rewrite set_path_step by discriminate.
    intros [H|H]%leaves_dict_set; [|auto].
    rewrite leaves_json_obj in H. apply IH in H as [H|H]; [auto|].
    right. eapply leaves_sub_mapping; eauto.
Qed.

Lemma leaves_zip2_set_path (segments : list string) (c : string) (d : dict json)
      (s : string) :
  In s (leaves (Zip2.set_path segments c d)) -> s = c \/ In s (leaves d).
Proof.
  revert d. induction segments as [|k r IH]; intros d; [auto|].
  destruct (String.eqb_spec k "") as [->|Hk].
  - cbn [Zip2.set_path]. simpl String.eqb. apply IH.
  - destruct r as [|k' r].
    + cbn [Zip2.set_path]. apply String.eqb_neq in Hk. rewrite Hk.
      intros [[<-|[]]|H]%leaves_dict_set; auto.
    + rewrite zip2_set_path_step by (assumption || discriminate).
      intros [H|H]%leaves_dict_set; [|auto].
      rewrite leaves_json_obj in H. apply IH in H as [H|H]; [auto|].
      right. eapply leaves_sub_mapping; eauto.
Qed.

Lemma leaves_assemble_of (f : source_file) (zip_read : string -> read_outcome)
      (decode : bytes -> string) (prefix : string) (paths : list string)
      (d : dict json) (s : string) :
  In s (leaves (assemble_of f zip_read decode prefix paths d)) ->
  In s (leaves d) \/ exists p, In p paths /\ s = file_content_str zip_read decode p.
Proof.
  revert d. induction paths as [|y paths IH]; intros d.
  - destruct f; simpl; auto.
  - intros H.
    assert (H' : In s (leaves (assemble_of f zip_read decode prefix paths
                  (set_path_of f (split (relative_path prefix y))
                               (file_content_str zip_read decode y) d)))).
    { destruct f; exact H. }
    apply IH in H' as [H'|[p [Hp E]]].
    + assert (Hs : s = file_content_str zip_read decode y \/ In s (leaves d)).
      { destruct f; [eapply leaves_app_set_path | eapply leaves_zip2_set_path]; eauto. }
      destruct Hs as [->|Hs]; [|auto]. right. exists y. simpl. auto.
    + right. exists p. simpl. auto.
Qed.

(** X13: every text held by a leaf of the assembled document is what the
    [try]/[except] block produced for one of the selected files: its
    decoded content, or the message that it could not be read. *)
Theorem leaves_come_from_selected_files (f : source_file)
        (zip_read : string -> read_outcome) (decode : bytes -> string)
        (paths : list string) (doc : dict json) (s : string) :
  build_of f zip_read decode paths = Some doc ->
  In s (leaves doc) ->
  exists p, In p paths /\ s = file_content_str zip_read decode p.
Proof.
  intros Hb Hs. destruct paths as [|p0 ps].
  - destruct f; simpl in Hb; injection Hb as <-; destruct Hs.
  - destruct (commonpath (p0 :: ps)) as [common|] eqn:Hc.
    + rewrite (build_of_assemble f _ _ _ common) in Hb by (assumption || discriminate).
      injection Hb as <-. apply leaves_assemble_of in Hs as [[]|Hs]. exact Hs.
    + assert (Hn : build_of f zip_read decode (p0 :: ps) = None).
      { apply build_of_fails_iff. split; [discriminate | assumption]. }
      congruence.
Qed.

Lemma leaves_come_from_selected_files_witness :
  exists p, In p ["src/a.py"; "x.bin"] /\
            ("Error reading/decoding file 'x.bin': " ++ dquote ++
             "There is no item named 'x.bin' in the archive" ++ dquote ++ ".")%string
            = file_content_str sample_zip ascii_decode p.
Proof.
  apply (leaves_come_from_selected_files zip_to_json_app sample_zip ascii_decode
           ["src/a.py"; "x.bin"]
           [("src", JObj [("a.py", JStr "1")]);
            ("x.bin", JStr ("Error reading/decoding file 'x.bin': " ++ dquote ++
                            "There is no item named 'x.bin' in the archive" ++ dquote ++
                            ".")%string)]).
  - reflexivity.
  - simpl. auto.
Defined.

(* ================================================================== *)
(** ** A single selected file *)
(* ================================================================== *)

Lemma split_slash_free (s : string) : Forall (fun x => slash_free x = true) (split s).
Proof.
  induction s as [|c s IH]; simpl; [repeat constructor|].
  destruct (Ascii.eqb c slash) eqn:E; [constructor; [reflexivity | assumption]|].
  destruct (split s) as [|h t]; [repeat constructor; simpl; now rewrite E|].
  inversion IH; subst. constructor; [simpl; now rewrite E | assumption].
Qed.

Lemma split_of_slash_free (s : string) : slash_free s = true -> split s = [s].
Proof.
  induction s as [|c s IH]; simpl; [reflexivity|].
  intros H. apply andb_true_iff in H as [Hc Hs]. apply negb_true_iff in Hc.
  rewrite Hc, (IH Hs). reflexivity.
Qed.

Lemma upto_last_slash_free (b : string) : slash_free b = true -> upto_last_slash b = "".
Proof.
  induction b as [|c b IH]; simpl; [reflexivity|].
  intros H. apply andb_true_iff in H as [Hc Hs]. apply negb_true_iff in Hc.
  now rewrite (IH Hs), Hc.
Qed.

Lemma upto_last_slash_app (d b : string) :
  slash_free b = true -> upto_last_slash (d ++ "/" ++ b) = (d ++ "/")%string.
Proof.
  intros Hb. induction d as [|c d IH].
  - simpl. now rewrite (upto_last_slash_free b Hb).
  - change (upto_last_slash (String c (d ++ "/" ++ b)) = String c (d ++ "/")).
    cbn [upto_last_slash]. rewrite IH. destruct d; reflexivity.
Qed.

Lemma drop_app (a b : string) : drop (String.length a) (a ++ b) = b.
Proof. induction a; simpl; [now destruct b | assumption]. Qed.

Lemma startswith_longer (p : string) (c : ascii) (r : string) :
  startswith p (p ++ String c r) = false.
Proof.
  unfold startswith. induction p as [|a p IH]; simpl; [reflexivity|].
  destruct (ascii_dec a a); [assumption | reflexivity].
Qed.

Lemma common_components_refl (s : list string) : common_components s s = s.
Proof. induction s as [|c s IH]; simpl; [reflexivity|]. now rewrite String.eqb_refl, IH. Qed.

Lemma startswith_slash_split (p : string) :
  startswith p "/" = true -> exists t, split p = "" :: t.
Proof.
  intros [r ->]%startswith_iff. simpl. eauto.
Qed.

Lemma endswith_slash_split (p : string) :
  endswith p "/" = true -> last (split p) "" = "".
Proof.
  intros [r ->]%endswith_iff.
  change (r ++ "/")%string with (r ++ "/" ++ "")%string.
  rewrite split_app_slash. simpl. apply last_last.
Qed.

Lemma plain_not_slash_start (p : string) :
  Forall plain_segment (split p) -> startswith p "/" = false.
Proof.
  intros H. destruct (startswith p "/") eqn:E; [|reflexivity].
  apply startswith_slash_split in E as [t E]. rewrite E in H.
  inversion H as [|? ? [Hne _] _]. congruence.
Qed.

Lemma plain_not_slash_end (p : string) :
  Forall plain_segment (split p) -> endswith p "/" = false.
Proof.
  intros H. destruct (endswith p "/") eqn:E; [|reflexivity].
  apply endswith_slash_split in E.
  pose proof (split_not_nil p) as Hn.
  destruct (exists_last Hn) as [front [base Hs]]. rewrite Hs in *.
  rewrite last_last in E. subst base.
  apply Forall_app in H as [_ H]. inversion H as [|? ? [Hne _] _]. congruence.
Qed.

Lemma plain_nonempty (p : string) : Forall plain_segment (split p) -> p <> "".
Proof. intros H ->. simpl in H. inversion H as [|? ? [Hne _] _]. congruence. Qed.

Lemma components_plain (p : string) :
  Forall plain_segment (split p) ->
  filter (fun c => negb (c =? "")%string && negb (c =? ".")%string) (split p) = split p.
Proof.
  generalize (split p) as l. induction 1 as [|a l [H1 H2] Hl IH]; simpl; [reflexivity|].
  apply String.eqb_neq in H1, H2. now rewrite H1, H2, IH.
Qed.

Lemma commonpath_single (p : string) :
  Forall plain_segment (split p) -> commonpath [p] = Some p.
Proof.
  intros H. unfold commonpath. cbn [forallb map].
  rewrite Bool.eqb_reflx. cbn [andb].
  rewrite (plain_not_slash_start p H). cbv zeta.
  unfold list_min, list_max. cbn [fold_left].
  rewrite components_plain by assumption.
  now rewrite common_components_refl, join_split.
Qed.

Lemma all_slashes_start (s : string) :
  s <> "" -> all_slashes s = true -> startswith s "/" = true.
Proof.
  destruct s as [|c s]; [congruence|]. intros _. simpl.
  intros H. apply andb_true_iff in H as [Hc _]. apply Ascii.eqb_eq in Hc. subst c.
  apply startswith_iff. now exists s.
Qed.

(** The directory and the base name of a path with plain segments. *)
Lemma plain_path_parts (p : string) :
  Forall plain_segment (split p) ->
  (split p = [p] /\ slash_free p = true) \/
  exists d base,
    p = (d ++ "/" ++ base)%string /\ slash_free base = true /\ base <> "" /\
    d <> "" /\ d <> "." /\ startswith d "/" = false /\ endswith d "/" = false /\
    last (split p) "" = base.
Proof.
  intros H. pose proof (split_not_nil p) as Hn.
  destruct (exists_last Hn) as [front [base Hs]].
  pose proof (split_slash_free p) as Hfree. rewrite Hs in Hfree.
  apply Forall_app in Hfree as [_ Hbase]. inversion Hbase as [|? ? Hb _]; subst.
  destruct front as [|x front].
  - left. simpl in Hs. assert (E : p = base).
    { rewrite <- (join_split p), Hs. reflexivity. }
    subst base. auto.
  - right.
    destruct (split_app_inv p (x :: front) [base] Hs) as [d [r [Hp [Hd Hr]]]];
      try discriminate.
    assert (Er : r = base) by (rewrite <- (join_split r), Hr; reflexivity).
    subst r. exists d, base.
    assert (Hplain_d : Forall plain_segment (split d)).
    { rewrite Hd. rewrite Hs in H. now apply Forall_app in H as [H _]. }
    rewrite Hs in H. apply Forall_app in H as [_ H].
    inversion H as [|? ? [Hb1 Hb2] _]; subst.
    repeat split; try assumption.
    + now apply plain_nonempty.
    + intros ->. simpl in Hplain_d. inversion Hplain_d as [|? ? [_ Hdot] _]. congruence.
    + now apply plain_not_slash_start.
    + now apply plain_not_slash_end.
    + rewrite Hs. apply last_last.
Qed.

Lemma dirname_plain (d base : string) :
  slash_free base = true -> d <> "" ->
  startswith d "/" = false -> endswith d "/" = false ->
  dirname (d ++ "/" ++ base) = d.
Proof.
  intros Hb Hd Hstart Hend. unfold dirname.
  rewrite upto_last_slash_app by assumption.
  assert (Hne : ((d ++ "/") =? "")%string = false).
  { apply String.eqb_neq. destruct d; discriminate. }
  assert (Hall : all_slashes (d ++ "/") = false).
  { destruct (all_slashes (d ++ "/")) eqn:E; [|reflexivity].
    apply all_slashes_start in E; [|destruct d; discriminate].
    apply startswith_iff in E as [r E]. destruct d as [|c d]; [congruence|].
    simpl in E. inversion E; subst c.
    rewrite <- Hstart. symmetry. apply startswith_iff. now exists d. }
  rewrite Hne, Hall. simpl. rewrite rstrip_app_slash. now apply rstrip_id.
Qed.

(** X14: [zip2json.py] files a single selected file under its base name
    alone, whatever directories lead to it, when no segment of its path is
    empty or ".". *)
Theorem zip2json_single_file_is_a_bare_key (zip_read : string -> read_outcome)
        (decode : bytes -> string) (p : string) :
  Forall plain_segment (split p) ->
  Zip2.build_nested_json_from_paths zip_read decode [p] =
  Some [(last (split p) "", JStr (file_content_str zip_read decode p))].
Proof.
  intros H. unfold Zip2.build_nested_json_from_paths.
  rewrite (commonpath_single p H). f_equal.
  pose proof (plain_nonempty p H) as Hp.
  pose proof (plain_not_slash_end p H) as Hend.
  assert (Hprefix :
    (exists base, slash_free base = true /\ base <> "" /\ last (split p) "" = base /\
       relative_path (Zip2.common_prefix_of p [p]) p = base)).
  { unfold Zip2.common_prefix_of. cbv zeta.
    assert (Hnp : nonempty p = true) by now apply nonempty_true.
    rewrite Hnp. cbn [existsb]. rewrite String.eqb_refl, Hend. cbn [orb andb negb].
    destruct (plain_path_parts p H) as [[Hs Hfree]|[d [base Hparts]]].
    - exists p. rewrite Hs. cbn [last].
      unfold dirname. rewrite (upto_last_slash_free p Hfree). simpl.
      repeat split; try assumption.
    - destruct Hparts as [Hpeq [Hfree [Hb [Hd [Hdot [Hs [He Hlast]]]]]]].
      exists base. repeat split; try assumption.
      assert (Hdir : dirname p = d).
      { rewrite Hpeq. now apply dirname_plain. }
      rewrite !Hdir.
      assert (Hnd : nonempty d = true) by now apply nonempty_true.
      rewrite Hnd, He. cbn [andb negb].
      assert (E1 : ((d ++ "/") =? "./")%string = false).
      { apply String.eqb_neq. intros E. destruct d as [|c [|c' d]]; simpl in E;
          inversion E; subst; try congruence. destruct d; discriminate. }
      assert (E2 : ((d ++ "/") =? ".")%string = false).
      { apply String.eqb_neq. intros E. destruct d as [|c d]; simpl in E;
          inversion E. destruct d; discriminate. }
      rewrite E1, E2. cbn [orb]. unfold relative_path.
      assert (Hn' : nonempty (d ++ "/") = true).
      { apply nonempty_true. destruct d; discriminate. }
      rewrite Hn'.
      assert (Hpeq' : p = ((d ++ "/") ++ base)%string) by now rewrite append_assoc.
      rewrite Hpeq', startswith_app. cbn [andb]. apply drop_app. }
  destruct Hprefix as [base [Hfree [Hb [Hlast Hrel]]]].
  unfold Zip2.assemble. cbn [fold_left]. rewrite Hrel, Hlast.
  rewrite (split_of_slash_free base Hfree). cbn [Zip2.set_path].
  apply String.eqb_neq in Hb. now rewrite Hb.
Qed.

Lemma zip2json_single_file_is_a_bare_key_witness :
  Zip2.build_nested_json_from_paths echo_zip ascii_decode ["docs/api/index.md"] =
  Some [("index.md", JStr "docs/api/index.md")].
Proof.
  apply (zip2json_single_file_is_a_bare_key echo_zip ascii_decode "docs/api/index.md").
  repeat constructor; discriminate.
Defined.

(** X15: [zip_to_json_app.py] strips nothing from a single selected file:
    it is filed under all the segments of its path, when none of them is
    empty or ".". *)
Theorem app_single_file_keeps_its_directories (zip_read : string -> read_outcome)
        (decode : bytes -> string) (p : string) :
  Forall plain_segment (split p) ->
  App.build_nested_json_from_paths zip_read decode [p] =
  Some (App.set_path (split p) (file_content_str zip_read decode p) []) /\
  json_at (split p) (App.set_path (split p) (file_content_str zip_read decode p) []) =
  Some (JStr (file_content_str zip_read decode p)).
Proof.
  intros H. split; [|apply json_at_set_path_same, split_not_nil].
  unfold App.build_nested_json_from_paths.
  rewrite (commonpath_single p H). f_equal.
  pose proof (plain_nonempty p H) as Hp.
  pose proof (plain_not_slash_end p H) as Hend.
  assert (Hrel : relative_path (App.common_prefix_of p [p]) p = p).
  { unfold App.common_prefix_of. cbv zeta. cbn [filter].
    rewrite String.eqb_refl. cbn [negb forallb]. rewrite andb_false_r.
    assert (Hnp : nonempty p = true) by now apply nonempty_true.
    rewrite Hnp, Hend. cbn [andb negb].
    destruct ((p ++ "/") =? "./")%string; unfold relative_path; [reflexivity|].
    now rewrite startswith_longer, andb_false_r. }
  unfold App.assemble. cbn [fold_left]. now rewrite Hrel.
Qed.

Lemma app_single_file_keeps_its_directories_witness :
  App.build_nested_json_from_paths echo_zip ascii_decode ["docs/api/index.md"] =
  Some [("docs", JObj [("api", JObj [("index.md", JStr "docs/api/index.md")])])].
Proof.
  apply (app_single_file_keeps_its_directories echo_zip ascii_decode "docs/api/index.md").
  repeat constructor; discriminate.
Defined.

(* ================================================================== *)
(** ** The checkboxes of the tree display *)
(* ================================================================== *)

Lemma append_inj_l (a b c : string) : (a ++ c = b ++ c)%string -> a = b.
Proof.
  revert b. induction a as [|x a IH]; intros [|y b] H; simpl in *; try reflexivity.
  - exfalso. apply (f_equal String.length) in H. simpl in H.
    rewrite length_append in H. lia.
  - exfalso. apply (f_equal String.length) in H. simpl in H.
    rewrite length_append in H. lia.
  - inversion H. f_equal. auto.
Qed.

Lemma node_paths_distinct (namelist : list string) (ks1 ks2 : list string)
      (n1 n2 : node) :
  node_at ks1 (build_file_tree_from_zip namelist) = Some n1 ->
  node_at ks2 (build_file_tree_from_zip namelist) = Some n2 ->
  node_path n1 = node_path n2 -> ks1 = ks2.
Proof.
  intros H1 H2 Hp.
  apply node_is_listed in H1. apply node_is_listed in H2.
  destruct n1 as [p1|fp1 ch1], n2 as [p2|fp2 ch2]; simpl in Hp.
  - destruct H1 as [-> _], H2 as [-> _]. now subst.
  - exfalso. destruct H1 as [_ [_ He]], H2 as [d [_ [-> _]]]. subst p1.
    rewrite endswith_app in He. discriminate.
  - exfalso. destruct H2 as [_ [_ He]], H1 as [d [_ [-> _]]]. subst p2.
    rewrite endswith_app in He. discriminate.
  - destruct H1 as [d1 [-> [-> _]]], H2 as [d2 [-> [-> _]]].
    apply append_inj_l in Hp. now subst.
Qed.

(** X16: in the built tree two different nodes never carry the same path,
    so no two checkboxes of the display share a key. *)
Theorem node_paths_are_distinct (namelist : list string) (ks1 ks2 : list string)
        (n1 n2 : node) :
  node_at ks1 (build_file_tree_from_zip namelist) = Some n1 ->
  node_at ks2 (build_file_tree_from_zip namelist) = Some n2 ->
  node_path n1 = node_path n2 -> ks1 = ks2 /\ n1 = n2.
Proof.
  intros H1 H2 Hp. assert (E : ks1 = ks2) by (eapply node_paths_distinct; eauto).
  subst. split; [reflexivity | congruence].
Qed.

Lemma node_paths_are_distinct_witness :
  ["src"] = ["src"] /\
  Folder "src/" [("a.py", File "src/a.py")] = Folder "src/" [("a.py", File "src/a.py")].
Proof.
  exact (node_paths_are_distinct ["src/a.py"; "README"] ["src"] ["src"]
           (Folder "src/" [("a.py", File "src/a.py")])
           (Folder "src/" [("a.py", File "src/a.py")]) eq_refl eq_refl eq_refl).
Defined.

Lemma node_all_paths_folder (p : string) (ch : tree) :
  node_all_paths (Folder p ch) = p :: all_paths ch.
Proof. reflexivity. Qed.

Lemma all_paths_flat_map (t : tree) :
  all_paths t = flat_map (fun kc => node_all_paths (snd kc)) t.
Proof. induction t as [|[k c] t IH]; simpl; congruence. Qed.

Lemma insert_item_perm (x : string * node) (l : list (string * node)) :
  Permutation (insert_item x l) (x :: l).
Proof.
  induction l as [|y l IH]; simpl; [reflexivity|].
  destruct (item_le x y); [reflexivity|].
  rewrite IH. apply perm_swap.
Qed.

Lemma sort_items_perm (t : tree) : Permutation (sort_items t) t.
Proof.
  induction t as [|x t IH]; simpl; [reflexivity|].
  rewrite insert_item_perm. now constructor.
Qed.

Lemma all_paths_sort_items (t : tree) :
  Permutation (all_paths (sort_items t)) (all_paths t).
Proof.
  rewrite !all_paths_flat_map. apply Permutation_flat_map, sort_items_perm.
Qed.

Lemma enough_fuel_mono (f f' : nat) (t : tree) :
  enough_fuel f t -> f <= f' -> enough_fuel f' t.
Proof.
  revert f' t. induction f as [|f IH]; intros f' t H Hle; [destruct H|].
  destruct f' as [|f']; [lia|]. simpl in *.
  intros k p ch Hin Hne. apply (IH f' ch); [eauto | lia].
Qed.

(** Some depth of recursion is enough for any tree. *)
Lemma enough_fuel_exists (t : tree) : exists fuel, enough_fuel fuel t.
Proof.
  apply (tree_node_ind
    (fun n => exists fuel, forall p ch, n = Folder p ch -> enough_fuel fuel ch)
    (fun t => exists fuel, enough_fuel fuel t)).
  - intros p. exists 0. discriminate.
  - intros p ch [fuel H]. exists fuel. intros p' ch' E. inversion E; now subst.
  - exists 1. simpl. intros k p ch [].
  - intros k c r [fc Hc] [fr Hr]. destruct fr as [|fr]; [destruct Hr|].
    exists (S (Nat.max fc fr)). simpl. intros k' p ch [E|Hin] Hne.
    + inversion E; subst. apply (enough_fuel_mono fc); [now apply (Hc p) | lia].
    + apply (enough_fuel_mono fr); [simpl in Hr; eauto | lia].
Qed.

Section RenderFacts.
Variable checkbox : string -> bool -> bool.

Lemma checked_tick (st : dict bool) (a k : string) :
  checked (tick checkbox st a) k =
  if (k =? a)%string then checkbox a (checked st a) else checked st k.
Proof.
  unfold tick.
  destruct (Bool.eqb (checkbox a (checked st a)) (checked st a)) eqn:E.
  - apply Bool.eqb_prop in E. destruct (String.eqb_spec k a) as [->|_]; congruence.
  - unfold checked at 1. destruct (String.eqb_spec k a) as [->|Hne].
    + now rewrite dict_get_set_eq.
    + rewrite dict_get_set_ne by congruence. reflexivity.
Qed.

Lemma checked_fold_tick (keys : list string) (st : dict bool) (k : string) :
  NoDup keys ->
  (In k keys ->
   checked (fold_left (tick checkbox) keys st) k = checkbox k (checked st k)) /\
  (~ In k keys -> checked (fold_left (tick checkbox) keys st) k = checked st k).
Proof.
  intros Hnd. revert st. induction Hnd as [|a keys Ha Hnd IH]; intros st; simpl.
  - split; [tauto | reflexivity].
  - destruct (IH (tick checkbox st a)) as [IH1 IH2]. split.
    + intros [<-|Hin].
      * rewrite IH2 by assumption. rewrite checked_tick. now rewrite String.eqb_refl.
      * rewrite IH1 by assumption. rewrite checked_tick.
        destruct (String.eqb_spec k a) as [->|_]; [contradiction | reflexivity].
    + intros Hn. rewrite IH2 by tauto. rewrite checked_tick.
      destruct (String.eqb_spec k a) as [->|_]; [tauto | reflexivity].
Qed.

Lemma render_items_keys (rec : tree -> display -> option display)
      (items : list (string * node)) :
  (forall k p ch, In (k, Folder p ch) items -> ch <> [] ->
     exists keys, Permutation keys (all_paths ch) /\
       forall s, rec ch s = Some (fold_left (tick checkbox) keys (fst s), snd s ++ keys)) ->
  exists keys, Permutation keys (all_paths items) /\
    forall s, render_items checkbox rec items s =
              Some (fold_left (tick checkbox) keys (fst s), snd s ++ keys).
Proof.
  induction items as [|[k item] items IH]; intros Hrec.
  - exists []. split; [reflexivity|]. intros [st tr]. simpl. now rewrite app_nil_r.
  - destruct IH as [keys_rest [Hperm Hrest]].
    { intros k' p ch Hin. apply (Hrec k' p). simpl. auto. }
    assert (Hleaf : forall p, node_path item = p -> node_all_paths item = [p] ->
      (forall s, render_items checkbox rec ((k, item) :: items) s =
                 render_items checkbox rec items (checkbox_step checkbox s p)) ->
      exists keys, Permutation keys (all_paths ((k, item) :: items)) /\
        forall s, render_items checkbox rec ((k, item) :: items) s =
                  Some (fold_left (tick checkbox) keys (fst s), snd s ++ keys)).
    { intros p Hp Hall Hstep. exists (p :: keys_rest). split.
      - cbn [all_paths]. rewrite Hall. simpl. now constructor.
      - intros s. rewrite Hstep, Hrest. unfold checkbox_step. simpl.
        now rewrite <- app_assoc. }
    destruct item as [p|p [|c ch]].
    + apply (Hleaf p); reflexivity.
    + apply (Hleaf p); reflexivity.
    + destruct (Hrec k p (c :: ch)) as [keys_ch [Hpc Hch]]; [simpl; auto | discriminate|].
      exists (p :: keys_ch ++ keys_rest). split.
      * cbn [all_paths]. rewrite node_all_paths_folder. simpl. constructor.
        now apply Permutation_app.
      * intros s.
        change (render_items checkbox rec ((k, Folder p (c :: ch)) :: items) s)
          with (match rec (c :: ch) (checkbox_step checkbox s p) with
                | Some s2 => render_items checkbox rec items s2
                | None => None
                end).
        rewrite Hch, Hrest.
        unfold checkbox_step. cbn [fst snd fold_left].
        rewrite fold_left_app. now rewrite <- !app_assoc.
Qed.

Lemma render_tree_ui_keys (fuel : nat) (t : tree) :
  enough_fuel fuel t ->
  exists keys, Permutation keys (all_paths t) /\
    forall s, render_tree_ui checkbox fuel t s =
              Some (fold_left (tick checkbox) keys (fst s), snd s ++ keys).
Proof.
  revert t. induction fuel as [|fuel IH]; intros t Hfuel; [destruct Hfuel|].
  destruct (render_items_keys (render_tree_ui checkbox fuel) (sort_items t))
    as [keys [Hperm Hkeys]].
  - intros k p ch Hin Hne. apply IH. simpl in Hfuel. apply (Hfuel k p); [|assumption].
    eapply Permutation_in; [apply sort_items_perm | exact Hin].
  - exists keys. split; [|exact Hkeys].
    etransitivity; [exact Hperm | apply all_paths_sort_items].
Qed.

End RenderFacts.

Lemma node_at_head_last (k : string) (c : node) (r : tree) :
  node_at [k] ((k, c) :: r) = Some c.
Proof. unfold node_at. rewrite walk_last. simpl. now rewrite String.eqb_refl. Qed.

Lemma node_at_head_step (k p : string) (ch r : tree) (ks : list string) :
  ks <> [] -> node_at (k :: ks) ((k, Folder p ch) :: r) = node_at ks ch.
Proof.
  intros Hks. unfold node_at at 1. rewrite walk_step by assumption. simpl.
  now rewrite String.eqb_refl.
Qed.

Lemma node_at_tail (k : string) (c : node) (r : tree) (ks : list string) (n : node) :
  ~ In k (keys r) -> node_at ks r = Some n ->
  node_at ks ((k, c) :: r) = Some n /\ exists k' ks', ks = k' :: ks' /\ k' <> k.
Proof.
  intros Hk H. destruct ks as [|k0 r0]; [discriminate|].
  assert (Hk0 : In k0 (keys r)).
  { revert H. unfold node_at. destruct r0.
    - rewrite walk_last. apply dict_get_key.
    - rewrite walk_step by discriminate.
      destruct (dict_get k0 r) eqn:E; [|discriminate].
      intros _. eapply dict_get_key; eauto. }
  assert (Hne : k0 <> k) by (intros ->; contradiction).
  split; [|eauto].
  assert (Hb : (k =? k0)%string = false) by (apply String.eqb_neq; congruence).
  revert H. unfold node_at. destruct r0.
  - rewrite !walk_last. simpl. now rewrite Hb.
  - rewrite !walk_step by discriminate. simpl. now rewrite Hb.
Qed.

Lemma all_paths_node_at (t : tree) :
  wf_tree t -> forall x, In x (all_paths t) ->
  exists ks n, node_at ks t = Some n /\ node_path n = x.
Proof.
  apply (tree_node_ind
    (fun c => wf_node c -> forall x, In x (node_all_paths c) ->
       x = node_path c \/
       exists p ch ks n, c = Folder p ch /\ node_at ks ch = Some n /\ node_path n = x)
    (fun t => wf_tree t -> forall x, In x (all_paths t) ->
       exists ks n, node_at ks t = Some n /\ node_path n = x)).
  - intros p _ x [<-|[]]. now left.
  - intros p ch IH Hwf x Hin. rewrite node_all_paths_folder in Hin.
    destruct Hin as [<-|Hin]; [now left|]. right.
    pose proof (proj1 (wf_node_folder p ch) Hwf) as Hwf'.
    destruct (IH Hwf' x Hin) as [ks [n [H1 H2]]]. now exists p, ch, ks, n.
  - intros _ x [].
  - intros k c r IHc IHr [Hnd [Hc Hr]] x Hin. simpl in Hin.
    inversion Hnd as [|? ? Hnot Hnd']; subst.
    apply in_app_iff in Hin as [Hin|Hin].
    + destruct (IHc Hc x Hin) as [->|[p [ch [ks [n [-> [H1 H2]]]]]]].
      * exists [k], c. split; [apply node_at_head_last | reflexivity].
      * exists (k :: ks), n. split; [|assumption].
        rewrite node_at_head_step; [assumption | intros ->; discriminate].
    + destruct (IHr (conj Hnd' Hr) x Hin) as [ks [n [H1 H2]]].
      exists ks, n. split; [|assumption]. now apply node_at_tail.
Qed.

Lemma NoDup_all_paths (t : tree) :
  wf_tree t -> paths_distinct t -> NoDup (all_paths t).
Proof.
  apply (tree_node_ind
    (fun c => wf_node c ->
       (forall p ch, c = Folder p ch ->
          paths_distinct ch /\
          forall ks n, node_at ks ch = Some n -> node_path n <> p) ->
       NoDup (node_all_paths c))
    (fun t => wf_tree t -> paths_distinct t -> NoDup (all_paths t))).
  - intros p _ _. repeat constructor. simpl. tauto.
  - intros p ch IH Hwf Hd. rewrite node_all_paths_folder.
    pose proof (proj1 (wf_node_folder p ch) Hwf) as Hwf'.
    destruct (Hd p ch eq_refl) as [Hdist Hnot]. constructor; [|now apply IH].
    intros Hin. destruct (all_paths_node_at ch Hwf' p Hin) as [ks [n [H1 H2]]].
    now apply (Hnot ks n).
  - intros _ _. constructor.
  - intros k c r IHc IHr [Hnd [Hc Hr]] Hdist. simpl.
    inversion Hnd as [|? ? Hnot Hnd']; subst.
    assert (Hwr : wf_tree r) by (split; assumption).
    apply NoDup_app; [| |].
    + apply IHc; [assumption|]. intros p ch ->. split.
      * intros ks1 ks2 n1 n2 H1 H2 Hp.
        assert (E : k :: ks1 = k :: ks2).
        { apply (Hdist _ _ n1 n2); [| |assumption];
            rewrite node_at_head_step; try assumption; intros ->; discriminate. }
        now inversion E.
      * intros ks n H Hp.
        assert (E : k :: ks = [k]).
        { apply (Hdist _ _ n (Folder p ch)); [| apply node_at_head_last | assumption].
          rewrite node_at_head_step; [assumption | intros ->; discriminate]. }
        inversion E; subst. discriminate.
    + apply IHr; [assumption|]. intros ks1 ks2 n1 n2 H1 H2 Hp.
      apply (Hdist ks1 ks2 n1 n2); [| |assumption]; now apply node_at_tail.
    + intros x Hx1 Hx2.
      destruct (all_paths_node_at r Hwr x Hx2) as [ks2 [n2 [H2 Hp2]]].
      destruct (node_at_tail k c r ks2 n2 Hnot H2) as [H2' [k' [ks' [-> Hne]]]].
      assert (Hx1' : In x (all_paths [(k, c)])) by (simpl; now rewrite app_nil_r).
      assert (Hw1 : wf_tree [(k, c)]).
      { split; [repeat constructor; simpl; tauto | simpl; tauto]. }
      destruct (all_paths_node_at [(k, c)] Hw1 x Hx1') as [ks1 [n1 [H1 Hp1]]].
      assert (H1' : node_at ks1 ((k, c) :: r) = Some n1 /\ exists t1, ks1 = k :: t1).
      { destruct ks1 as [|k1 t1]; [discriminate|].
        revert H1. unfold node_at. destruct t1 as [|k2 t2].
        - rewrite !walk_last. simpl. destruct (String.eqb_spec k k1) as [->|_];
            [eauto | discriminate].
        - rewrite !walk_step by discriminate. simpl.
          destruct (String.eqb_spec k k1) as [->|_]; [eauto | discriminate]. }
      destruct H1' as [H1' [t1 ->]].
      assert (E : k :: t1 = k' :: ks').
      { apply (Hdist _ _ n1 n2); congruence. }
      inversion E. congruence.
Qed.

Lemma NoDup_all_paths_build (namelist : list string) :
  NoDup (all_paths (build_file_tree_from_zip namelist)).
Proof.
  apply NoDup_all_paths; [apply wf_build|].
  intros ks1 ks2 n1 n2. apply node_paths_distinct.
Qed.

Lemma node_at_all_paths (ks : list string) (t : tree) (n : node) :
  node_at ks t = Some n -> In (node_path n) (all_paths t).
Proof.
  revert t. induction ks as [|k r IH]; intros t; [discriminate|].
  assert (Hin : forall c, In (k, c) t -> forall x, In x (node_all_paths c) ->
                In x (all_paths t)).
  { intros c Hc x Hx. rewrite all_paths_flat_map. apply in_flat_map.
    exists (k, c). auto. }
  destruct r as [|k' r].
  - unfold node_at. rewrite walk_last. intros H%dict_get_In.
    apply (Hin n H). destruct n; simpl; auto.
  - unfold node_at. rewrite walk_step by discriminate.
    destruct (dict_get k t) as [[?|fp ch]|] eqn:E; try discriminate.
    intros H%IH. apply (Hin (Folder fp ch)); [now apply dict_get_In|].
    rewrite node_all_paths_folder. simpl. auto.
Qed.

Lemma render_items_some (checkbox : string -> bool -> bool)
      (rec : tree -> display -> option display) (items : list (string * node))
      (s out : display) (k p : string) (ch : tree) :
  render_items checkbox rec items s = Some out ->
  In (k, Folder p ch) items -> ch <> [] ->
  exists s1 out1, rec ch s1 = Some out1.
Proof.
  revert s. induction items as [|[k0 c0] items IH]; intros s H Hin Hne; [destruct Hin|].
  destruct Hin as [E|Hin].
  - inversion E; subst. destruct ch as [|c ch]; [congruence|].
    change (match rec (c :: ch) (checkbox_step checkbox s p) with
            | Some s2 => render_items checkbox rec items s2
            | None => None
            end = Some out) in H.
    destruct (rec (c :: ch) (checkbox_step checkbox s p)) eqn:Er; [eauto | discriminate].
  - destruct c0 as [p0|p0 [|c1 ch1]]; try (eapply IH; eauto; fail).
    change (match rec (c1 :: ch1) (checkbox_step checkbox s p0) with
            | Some s2 => render_items checkbox rec items s2
            | None => None
            end = Some out) in H.
    destruct (rec (c1 :: ch1) (checkbox_step checkbox s p0)); [|discriminate].
    eapply IH; eauto.
Qed.

Lemma render_some_enough_fuel (checkbox : string -> bool -> bool) (fuel : nat)
      (t : tree) (s out : display) :
  render_tree_ui checkbox fuel t s = Some out -> enough_fuel fuel t.
Proof.
  revert t s out. induction fuel as [|fuel IH]; intros t s out H; [discriminate|].
  simpl. intros k p ch Hin Hne.
  assert (Hin' : In (k, Folder p ch) (sort_items t)).
  { eapply Permutation_in; [apply Permutation_sym, sort_items_perm | exact Hin]. }
  simpl in H.
  destruct (render_items_some _ _ _ _ _ _ _ _ H Hin' Hne) as [s1 [out1 H1]].
  eapply IH; eauto.
Qed.

(** X17: the display ends for every tree, given recursion depth enough
    for it, and creates one checkbox per node: the keys of the checkboxes
    are the paths of the nodes, each once. *)
Theorem render_creates_one_checkbox_per_node (checkbox : string -> bool -> bool)
        (t : tree) :
  exists fuel, forall fuel', fuel <= fuel' -> forall s,
    exists states keys,
      render_tree_ui checkbox fuel' t s = Some (states, snd s ++ keys) /\
      Permutation keys (all_paths t).
Proof.
  destruct (enough_fuel_exists t) as [fuel Hfuel]. exists fuel.
  intros fuel' Hle s.
  destruct (render_tree_ui_keys checkbox fuel' t (enough_fuel_mono _ _ _ Hfuel Hle))
    as [keys [Hperm Hkeys]].
  exists (fold_left (tick checkbox) keys (fst s)), keys. auto.
Qed.

(** X18: for the tree built from an archive, after the display every
    checkbox is reflected in [checkbox_states]: the entry of each node's
    path is what its checkbox returned for the value stored before, and
    no other entry has changed. *)
Theorem render_records_the_checkboxes (checkbox : string -> bool -> bool)
        (namelist : list string) (fuel : nat) (states states' : dict bool)
        (keys : list string) :
  render_tree_ui checkbox fuel (build_file_tree_from_zip namelist) (states, []) =
    Some (states', keys) ->
  NoDup keys /\
  (forall k, In k keys <->
             exists ks n, node_at ks (build_file_tree_from_zip namelist) = Some n /\
                          node_path n = k) /\
  (forall k, In k keys -> checked states' k = checkbox k (checked states k)) /\
  (forall k, ~ In k keys -> checked states' k = checked states k).
Proof.
  intros H.
  assert (Hfuel : enough_fuel fuel (build_file_tree_from_zip namelist))
    by (eapply render_some_enough_fuel; eauto).
  destruct (render_tree_ui_keys checkbox fuel _ Hfuel) as [keys' [Hperm Hkeys]].
  rewrite Hkeys in H. simpl in H. injection H as <- <-.
  assert (Hnd : NoDup keys').
  { eapply Permutation_NoDup; [apply Permutation_sym, Hperm|].
    apply NoDup_all_paths_build. }
  split; [assumption|]. split; [|split].
  - intros k. split.
    + intros Hin. apply (all_paths_node_at _ (wf_build namelist)).
      eapply Permutation_in; eauto.
    + intros [ks [n [Hn <-]]]. eapply Permutation_in; [apply Permutation_sym, Hperm|].
      eapply node_at_all_paths; eauto.
  - intros k Hin. now apply checked_fold_tick.
  - intros k Hin. now apply checked_fold_tick.
Qed.

Example render_example :
  render_tree_ui tick_src 3
    (build_file_tree_from_zip ["src/b.py"; "README"; "src/a.py"; "docs/x.md"]) ([], []) =
  Some ([("src/", true)],
        ["docs/"; "docs/x.md"; "src/"; "src/a.py"; "src/b.py"; "README"]).
Proof. vm_compute. reflexivity. Qed.

Example render_runs_out_of_depth :
  render_tree_ui tick_src 1 (build_file_tree_from_zip ["src/a.py"]) ([], []) = None.
Proof. reflexivity. Qed.

Lemma render_records_the_checkboxes_witness :
  NoDup ["src/"; "src/a.py"; "README"] /\
  checked [("src/", true)] "src/" = tick_src "src/" (checked [] "src/").
Proof.
  destruct (render_records_the_checkboxes tick_src ["src/a.py"; "README"] 2 []
              [("src/", true)] ["src/"; "src/a.py"; "README"] eq_refl)
    as [Hnd [_ [Hin _]]].
  split; [exact Hnd|]. apply Hin. simpl. auto.
Defined.

Lemma item_le_total (a b : string * node) : item_le a b = true \/ item_le b a = true.
Proof.
  unfold item_le. destruct (is_file (snd a)), (is_file (snd b)); simpl; auto;
    apply String.leb_total.
Qed.

Lemma item_le_trans (a b c : string * node) :
  item_le a b = true -> item_le b c = true -> item_le a c = true.
Proof.
  unfold item_le.
  destruct (is_file (snd a)), (is_file (snd b)), (is_file (snd c)); simpl;
    try congruence; apply str_le_trans.
Qed.

Lemma insert_item_sorted (x : string * node) (l : list (string * node)) :
  Sorted (fun a b => item_le a b = true) l ->
  Sorted (fun a b => item_le a b = true) (insert_item x l).
Proof.
  induction 1 as [|y l Hs IH Hhd]; simpl; [repeat constructor|].
  destruct (item_le x y) eqn:E.
  - constructor; [now constructor | now constructor].
  - constructor; [assumption|].
    destruct (item_le_total x y) as [H|H]; [congruence|].
    destruct l as [|z l]; simpl; [now constructor|].
    destruct (item_le x z); constructor; [assumption|]. now inversion Hhd.
Qed.

Lemma sort_items_sorted (t : tree) :
  StronglySorted (fun a b => item_le a b = true) (sort_items t).
Proof.
  apply Sorted_StronglySorted; [intros a b c; apply item_le_trans|].
  induction t as [|x t IH]; simpl; [constructor|].
  now apply insert_item_sorted.
Qed.

Lemma item_le_displayed_before (a b : string * node) :
  item_le a b = true <-> displayed_before a b.
Proof.
  unfold item_le, displayed_before, str_le.
  destruct (is_file (snd a)), (is_file (snd b)); simpl; intuition congruence.
Qed.

Lemma sort_items_displayed_before (t : tree) :
  StronglySorted displayed_before (sort_items t).
Proof.
  induction (sort_items_sorted t) as [|a l Hs IH Hall]; constructor; [assumption|].
  eapply Forall_impl; [|exact Hall]. intros b. apply item_le_displayed_before.
Qed.

(** The keys created by the loop come in blocks, one per entry and in
    the order of the entries: the key of the entry, then the keys of its
    children. *)
Lemma render_items_blocks (checkbox : string -> bool -> bool)
      (rec : tree -> display -> option display) (items : list (string * node)) :
  (forall ch s1 out1, rec ch s1 = Some out1 ->
     exists ks, snd out1 = snd s1 ++ ks /\ Permutation ks (all_paths ch)) ->
  forall s out, render_items checkbox rec items s = Some out ->
  exists blocks,
    Forall2 (fun item block =>
               exists ks, block = node_path (snd item) :: ks /\
                          Permutation block (node_all_paths (snd item)))
            items blocks /\
    snd out = snd s ++ List.concat blocks.
Proof.
  intros Hrec. induction items as [|[k item] items IH]; intros s out H.
  - simpl in H. injection H as <-. exists []. split; [constructor|].
    simpl. now rewrite app_nil_r.
  - assert (Hleaf : forall p, node_path item = p -> node_all_paths item = [p] ->
      render_items checkbox rec items (checkbox_step checkbox s p) = Some out ->
      exists blocks,
        Forall2 (fun item block =>
                   exists ks, block = node_path (snd item) :: ks /\
                              Permutation block (node_all_paths (snd item)))
                ((k, item) :: items) blocks /\
        snd out = snd s ++ List.concat blocks).
    { intros p Hp Hall Hstep. destruct (IH _ _ Hstep) as [blocks [Hf Hout]].
      exists ([p] :: blocks). split.
      - constructor; [|assumption]. exists []. simpl. rewrite Hp, Hall. auto.
      - rewrite Hout. unfold checkbox_step. simpl. now rewrite <- app_assoc. }
    destruct item as [p|p [|c ch]].
    + apply (Hleaf p); [reflexivity | reflexivity | exact H].
    + apply (Hleaf p); [reflexivity | reflexivity | exact H].
    + change (match rec (c :: ch) (checkbox_step checkbox s p) with
              | Some s2 => render_items checkbox rec items s2
              | None => None
              end = Some out) in H.
      destruct (rec (c :: ch) (checkbox_step checkbox s p)) as [s2|] eqn:Er;
        [|discriminate].
      destruct (Hrec _ _ _ Er) as [ks [Hks Hperm]].
      destruct (IH _ _ H) as [blocks [Hf Hout]].
      exists ((p :: ks) :: blocks). split.
      * constructor; [|assumption]. exists ks. split; [reflexivity|].
        cbn [snd]. rewrite node_all_paths_folder. now constructor.
      * rewrite Hout, Hks. unfold checkbox_step. cbn [snd List.concat].
        rewrite <- !app_assoc. reflexivity.
Qed.

(** X19: each call of [render_tree_ui] that returns has created its
    checkboxes in blocks, one block per entry of the dictionary it was
    given, none lost or repeated: a block starts with the checkbox of
    the entry and goes on with those of the nodes below it, and the
    blocks come folders first, then files, each group by ascending
    name. *)
Theorem display_order_is_folders_then_files (checkbox : string -> bool -> bool)
        (fuel : nat) (data_dict : tree) (s out : display) :
  render_tree_ui checkbox fuel data_dict s = Some out ->
  exists items blocks,
    Permutation items data_dict /\
    StronglySorted displayed_before items /\
    Forall2 (fun item block =>
               exists ks, block = node_path (snd item) :: ks /\
                          Permutation block (node_all_paths (snd item)))
            items blocks /\
    snd out = snd s ++ List.concat blocks.
Proof.
  intros H. destruct fuel as [|fuel]; [discriminate|]. simpl in H.
  destruct (render_items_blocks checkbox (render_tree_ui checkbox fuel)
              (sort_items data_dict)) with (s := s) (out := out)
    as [blocks [Hf Hout]]; [|exact H|].
  - intros ch s1 out1 H1.
    destruct (render_tree_ui_keys checkbox fuel ch
                (render_some_enough_fuel _ _ _ _ _ H1)) as [ks [Hperm Hks]].
    rewrite Hks in H1. injection H1 as <-. exists ks. auto.
  - exists (sort_items data_dict), blocks.
    split; [apply sort_items_perm|]. split; [apply sort_items_displayed_before|].
    auto.
Qed.

Lemma display_order_is_folders_then_files_witness :
  exists items blocks,
    Permutation items
      (build_file_tree_from_zip ["src/b.py"; "README"; "src/a.py"; "docs/x.md"]) /\
    StronglySorted displayed_before items /\
    Forall2 (fun item block =>
               exists ks, block = node_path (snd item) :: ks /\
                          Permutation block (node_all_paths (snd item)))
            items blocks /\
    ["docs/"; "docs/x.md"; "src/"; "src/a.py"; "src/b.py"; "README"] =
    [] ++ List.concat blocks.
Proof.
  exact (display_order_is_folders_then_files tick_src 3
           (build_file_tree_from_zip ["src/b.py"; "README"; "src/a.py"; "docs/x.md"])
           ([], [])
           ([("src/", true)],
            ["docs/"; "docs/x.md"; "src/"; "src/a.py"; "src/b.py"; "README"])
           eq_refl).
Defined.

Lemma NoDup_keys_tick (checkbox : string -> bool -> bool) (st : dict bool)
      (k : string) :
  NoDup (keys st) -> NoDup (keys (tick checkbox st k)).
Proof.
  intros H. unfold tick.
  destruct (Bool.eqb _ _); [assumption | now apply NoDup_keys_set].
Qed.

Lemma NoDup_keys_fold_tick (checkbox : string -> bool -> bool) (l : list string)
      (st : dict bool) :
  NoDup (keys st) -> NoDup (keys (fold_left (tick checkbox) l st)).
Proof.
  revert st. induction l as [|k l IH]; intros st H; simpl; [assumption|].
  now apply IH, NoDup_keys_tick.
Qed.

Lemma user_selected_iff (st : dict bool) (k : string) :
  NoDup (keys st) ->
  In k (user_selected_paths_from_ui st) <-> checked st k = true.
Proof.
  unfold user_selected_paths_from_ui, checked.
  induction st as [|[k' b] st IH]; intros Hnd; simpl; [split; [tauto | discriminate]|].
  inversion Hnd as [|? ? Hnot Hnd']; subst.
  destruct (String.eqb_spec k' k) as [->|Hne].
  - destruct b; simpl; [tauto|]. split; [|discriminate].
    intros Hin. exfalso. apply Hnot. apply in_map_iff in Hin as [[k0 b0] [<- Hin]].
    apply filter_In in Hin as [Hin _]. change k0 with (fst (k0, b0)).
    now apply in_map.
  - rewrite <- (IH Hnd'). destruct b; simpl; intuition congruence.
Qed.

(** X20: after a first display of the tree built from an archive, the
    selected paths read from [checkbox_states] are the paths of the nodes
    whose checkbox returned [True]. *)
Theorem selection_is_the_ticked_nodes (checkbox : string -> bool -> bool)
        (namelist : list string) (fuel : nat) (states' : dict bool)
        (keys : list string) (k : string) :
  render_tree_ui checkbox fuel (build_file_tree_from_zip namelist) ([], []) =
    Some (states', keys) ->
  In k (user_selected_paths_from_ui states') <->
  (exists ks n, node_at ks (build_file_tree_from_zip namelist) = Some n /\
                node_path n = k) /\
  checkbox k false = true.
Proof.
  intros H.
  assert (Hfuel : enough_fuel fuel (build_file_tree_from_zip namelist))
    by (eapply render_some_enough_fuel; eauto).
  destruct (render_tree_ui_keys checkbox fuel _ Hfuel) as [keys' [Hperm Hkeys]].
  rewrite Hkeys in H. simpl in H. injection H as <- <-.
  assert (Hnd : NoDup keys').
  { eapply Permutation_NoDup; [apply Permutation_sym, Hperm|].
    apply NoDup_all_paths_build. }
  assert (Hmem : In k keys' <->
    exists ks n, node_at ks (build_file_tree_from_zip namelist) = Some n /\
                 node_path n = k).
  { split.
    - intros Hin. apply (all_paths_node_at _ (wf_build namelist)).
      eapply Permutation_in; eauto.
    - intros [ks [n [Hn <-]]]. eapply Permutation_in; [apply Permutation_sym, Hperm|].
      eapply node_at_all_paths; eauto. }
  rewrite user_selected_iff by (apply NoDup_keys_fold_tick; constructor).
  destruct (checked_fold_tick checkbox keys' [] k Hnd) as [H1 H2].
  rewrite <- Hmem. split.
  - intros Hc. assert (Hin : In k keys').
    { destruct (in_dec string_dec k keys') as [Hin|Hn]; [assumption|].
      rewrite (H2 Hn) in Hc. discriminate. }
    split; [assumption|]. now rewrite (H1 Hin) in Hc.
  - intros [Hin Hc]. now rewrite (H1 Hin).
Qed.

Lemma selection_is_the_ticked_nodes_witness :
  In "src/" (user_selected_paths_from_ui [("src/", true)]) <->
  (exists ks n, node_at ks (build_file_tree_from_zip ["src/a.py"; "README"]) = Some n /\
                node_path n = "src/") /\
  tick_src "src/" false = true.
Proof.
  exact (selection_is_the_ticked_nodes tick_src ["src/a.py"; "README"] 2
           [("src/", true)] ["src/"; "src/a.py"; "README"] "src/" eq_refl).
Defined.
